(** * Sliding picture puzzle: the puzzle engine of [src/App.tsx]

    A shallow embedding of the board generator ([initPuzzle]: Fisher-Yates
    shuffle, parity test, rejection loop), of the move handler
    ([handleTileClick]) and of the one-second timer, followed by the
    properties of the engine.

    Conventions of the embedding.
    - JavaScript numbers that hold integers (tile identifiers, positions,
      counters) are [Z]; every quantity of the engine stays far below 2^53,
      where the arithmetic of doubles on integers is exact.
    - [Math.floor (a / b)] with [b > 0] is [a / b] on [Z] (floor division);
      the remainder operator [%] is [Z.rem] (sign of the dividend).
    - [Math.random] is an oracle [rnd : nat -> nat], one entry per call;
      [Math.floor (Math.random () * (i + 1))] is any integer of [0..i] and
      is read off the oracle as [rnd k mod (i + 1)].
    - The [do ... while] of the generator has no bound in the source; the
      embedding gives it fuel and answers [None] when the fuel is used up.
    - React state updates are applied one event at a time.
    - The view state [showHint] takes no part in the engine and is left out.
    - Of the view, what computes on the state is embedded: the text of the
      clock and the picture piece a tile button shows; integers are printed
      in decimal ([pretty]).  Styling, and the picture offsets in percent
      (floating point), are left out. *)

From Stdlib Require Import Ascii.
From stdpp Require Import base numbers list gmap strings pretty.

Open Scope Z_scope.

(** ** Data model *)

(** [type GridSize = 3 | 4 | 5] *)
Inductive GridSize := Three | Four | Five.

Definition gs (size : GridSize) : Z :=
  match size with Three => 3 | Four => 4 | Five => 5 end.

#[global] Instance GridSize_eq_dec : EqDecision GridSize.
Proof. solve_decision. Defined.

(** What an element read of a [number[]] can yield at run time. *)
Inductive jsval := JUndefined | JNum (n : Z).

#[global] Instance jsval_eq_dec : EqDecision jsval.
Proof. solve_decision. Defined.

(** [v === i] for a number [i]. *)
Definition strict_eq_num (v : jsval) (i : Z) : bool :=
  match v with JNum n => n =? i | JUndefined => false end.

(** A JavaScript array: the indexed slots ([None] is a hole), and the
    properties stored under integer keys that are not array indices
    (negative keys, and keys from 2^32 - 1 on).  [length] is the number of
    slots. *)
Record jsarray := JsArray {
  slots : list (option jsval);
  others : gmap Z jsval
}.

Definition is_array_index (k : Z) : bool := (0 <=? k) && (k <? 2 ^ 32 - 1).

Definition js_length (a : jsarray) : Z := Z.of_nat (length (slots a)).

(** [a[k]] *)
Definition js_get (a : jsarray) (k : Z) : jsval :=
  if is_array_index k then
    match slots a !! Z.to_nat k with
    | Some (Some v) => v
    | _ => JUndefined
    end
  else default JUndefined (others a !! k).

(** [a[k] = v]: a write past the end extends the array with holes; a key
    that is no array index becomes a plain property. *)
Definition js_set (a : jsarray) (k : Z) (v : jsval) : jsarray :=
  if is_array_index k then
    if k <? js_length a then
      JsArray (<[Z.to_nat k := Some v]> (slots a)) (others a)
    else
      JsArray (slots a ++ replicate (Z.to_nat k - length (slots a)) None ++ [Some v])
              (others a)
  else JsArray (slots a) (<[k := v]> (others a)).

(** [[...a]]: a fresh array of the same length; holes are read as
    [undefined], plain properties are not copied. *)
Definition js_spread (a : jsarray) : jsarray :=
  JsArray ((λ o, Some (default JUndefined o)) <$> slots a) ∅.

(** [a.every((tile, i) => p tile i)]: holes are skipped. *)
Fixpoint every_from (p : jsval → Z → bool) (l : list (option jsval)) (i : Z) : bool :=
  match l with
  | [] => true
  | None :: l' => every_from p l' (i + 1)
  | Some v :: l' => p v i && every_from p l' (i + 1)
  end.

Definition js_every (p : jsval → Z → bool) (a : jsarray) : bool :=
  every_from p (slots a) 0.

(** The array literal of a list of numbers. *)
Definition dense (l : list Z) : jsarray := JsArray ((λ n, Some (JNum n)) <$> l) ∅.

(** [interface PuzzleState] *)
Record PuzzleState := mkPuzzle {
  tiles : jsarray;
  emptyIndex : Z;
  moves : Z;
  seconds : Z;
  isStarted : bool;
  isSolved : bool
}.

(** [timerRef]: [null], the handle of a running interval, or the handle of
    an interval that [clearInterval] has stopped. *)
Inductive timer := NoTimer | Running | Cleared.

#[global] Instance timer_eq_dec : EqDecision timer.
Proof. solve_decision. Defined.

(** [if (timerRef.current) clearInterval(timerRef.current)] *)
Definition clearTimer (t : timer) : timer :=
  match t with NoTimer => NoTimer | Running => Cleared | Cleared => Cleared end.

(** The state of the component [App]. *)
Record App := mkApp {
  image : option string;
  gridSize : GridSize;
  puzzle : PuzzleState;
  timerRef : timer
}.

(** The state of the first render. *)
Definition initialApp : App :=
  mkApp None Three (mkPuzzle (JsArray [] ∅) (-1) 0 0 false false) NoTimer.

(** ** Board generator *)

(** [arr.indexOf(x)] on an array of numbers: first position, or -1. *)
Fixpoint indexOf_from (l : list Z) (x : Z) (k : Z) : Z :=
  match l with
  | [] => -1
  | y :: l' => if y =? x then k else indexOf_from l' x (k + 1)
  end.

Definition indexOf (l : list Z) (x : Z) : Z := indexOf_from l x 0.

(** [[s[i], s[j]] = [s[j], s[i]]] on an array of numbers, both positions
    inside the array (as they are in [shuffle], see [shuffle_loop]). *)
Definition swap (l : list Z) (i j : nat) : list Z :=
  match l !! i, l !! j with
  | Some a, Some b => <[j := a]> (<[i := b]> l)
  | _, _ => l
  end.

(** The loop of [shuffle]: [for (let i = len - 1; i > 0; i--)], the [pos]-th
    call of [Math.random] being the next one. *)
Fixpoint shuffle_loop (rnd : nat → nat) (pos : nat) (i : nat) (shuffled : list Z) : list Z :=
  match i with
  | O => shuffled
  | S i' =>
      let j := (rnd pos `mod` (i + 1))%nat in
      shuffle_loop rnd (S pos) i' (swap shuffled i j)
  end.

Definition shuffle (rnd : nat → nat) (pos : nat) (array : list Z) : list Z :=
  shuffle_loop rnd pos (length array - 1)%nat array.

(** [flatTiles[i] > flatTiles[j]] (false when a read is [undefined]). *)
Definition gt_at (flatTiles : list Z) (i j : nat) : bool :=
  match flatTiles !! i, flatTiles !! j with
  | Some a, Some b => b <? a
  | _, _ => false
  end.

(** The two nested [for] loops of [isSolvable]. *)
Definition count_inversions (flatTiles : list Z) : nat :=
  let len := length flatTiles in
  foldl (λ inversions i,
           foldl (λ inversions j,
                    if gt_at flatTiles i j then S inversions else inversions)
                 inversions (seq (S i) (len - S i)))
        O (seq 0 len).

(** [isSolvable], [totalTiles] being the variable of the enclosing
    [initPuzzle]. *)
Definition isSolvable (totalTiles : Z) (tiles : list Z) (size : GridSize) : bool :=
  let flatTiles := List.filter (λ t, negb (t =? totalTiles - 1)) tiles in
  let inversions := count_inversions flatTiles in
  if negb (Z.rem (gs size) 2 =? 0) then
    (inversions `mod` 2 =? 0)%nat
  else
    let emptyRowFromBottom := gs size - indexOf tiles (totalTiles - 1) / gs size in
    if Z.rem emptyRowFromBottom 2 =? 0
    then negb (inversions `mod` 2 =? 0)%nat
    else (inversions `mod` 2 =? 0)%nat.

(** [JSON.stringify(a) === JSON.stringify(b)] on arrays of integers: the
    texts agree exactly when the arrays do. *)
Definition json_eq (a b : list Z) : bool := bool_decide (a = b).

(** The rejection loop [do { ... } while (...)]; every round draws
    [length initialTiles - 1] random numbers. *)
Fixpoint shuffle_until (fuel : nat) (rnd : nat → nat) (pos : nat)
    (totalTiles : Z) (size : GridSize) (initialTiles : list Z) : option (list Z) :=
  match fuel with
  | O => None
  | S fuel' =>
      let shuffledTiles := shuffle rnd pos initialTiles in
      if negb (isSolvable totalTiles shuffledTiles size)
         || json_eq shuffledTiles initialTiles
      then shuffle_until fuel' rnd (pos + (length initialTiles - 1))%nat
             totalTiles size initialTiles
      else Some shuffledTiles
  end.

(** [initPuzzle(size)]: [None] when the rejection loop has not ended within
    the fuel.  The previous interval, if any, is cleared and a new one is
    started, so [timerRef] ends up running. *)
Definition initPuzzle (fuel : nat) (rnd : nat → nat) (size : GridSize) (s : App)
    : option App :=
  let totalTiles := gs size * gs size in
  let initialTiles := seqZ 0 totalTiles in
  match shuffle_until fuel rnd 0 totalTiles size initialTiles with
  | None => None
  | Some shuffledTiles =>
      Some (mkApp (image s) (gridSize s)
              (mkPuzzle (dense shuffledTiles)
                        (indexOf shuffledTiles (totalTiles - 1))
                        0 0 true false)
              Running)
  end.

(** ** Puzzle session *)

(** The callback of [setInterval]:
    [setPuzzle(prev => ({ ...prev, seconds: prev.seconds + 1 }))]. *)
Definition tick_callback (prev : PuzzleState) : PuzzleState :=
  mkPuzzle (tiles prev) (emptyIndex prev) (moves prev) (seconds prev + 1)
           (isStarted prev) (isSolved prev).

(** One period of the timer: the callback runs when an interval is running. *)
Definition tick (s : App) : App :=
  match timerRef s with
  | Running => mkApp (image s) (gridSize s) (tick_callback (puzzle s)) (timerRef s)
  | _ => s
  end.

(** The test [isAdjacent] of [handleTileClick]; [row], [col], [emptyRow]
    and [emptyCol] are its local constants.  ([%] may yield [-0], which
    [===] does not tell from [0].) *)
Definition isAdjacent (size index emptyIdx : Z) : bool :=
  let row := index / size in
  let col := Z.rem index size in
  let emptyRow := emptyIdx / size in
  let emptyCol := Z.rem emptyIdx size in
  (Z.abs (row - emptyRow) =? 1) && (col =? emptyCol)
  || (Z.abs (col - emptyCol) =? 1) && (row =? emptyRow).

(** [handleTileClick(index)]; [clearInterval] runs when the move solves the
    puzzle. *)
Definition handleTileClick (s : App) (index : Z) : App :=
  let p := puzzle s in
  if negb (isStarted p) || isSolved p then s
  else
    let size := gs (gridSize s) in
    let emptyIdx := emptyIndex p in
    if isAdjacent size index emptyIdx then
      let copy := js_spread (tiles p) in
      let atEmpty := js_get copy emptyIdx in
      let atIndex := js_get copy index in
      let newTiles := js_set (js_set copy index atEmpty) emptyIdx atIndex in
      let solved := js_every strict_eq_num newTiles in
      mkApp (image s) (gridSize s)
            (mkPuzzle newTiles index (moves p + 1) (seconds p) (isStarted p) solved)
            (if solved then clearTimer (timerRef s) else timerRef s)
    else s.

(** [setGridSize(size)], the difficulty buttons. *)
Definition setGridSize (s : App) (size : GridSize) : App :=
  mkApp (image s) size (puzzle s) (timerRef s).

(** [reader.onload] of [onDrop]: a new picture is in. *)
Definition onDrop (s : App) (data : string) : App :=
  let prev := puzzle s in
  mkApp (Some data) (gridSize s)
        (mkPuzzle (tiles prev) (emptyIndex prev) (moves prev) (seconds prev) false false)
        (timerRef s).

(** [setImage(null)], the button for another picture. *)
Definition clearImage (s : App) : App :=
  mkApp None (gridSize s) (puzzle s) (timerRef s).

(** [resetGame()] *)
Definition resetGame (fuel : nat) (rnd : nat → nat) (s : App) : option App :=
  match image s with
  | Some _ => initPuzzle fuel rnd (gridSize s) s
  | None => Some s
  end.

(** ** The session of the specification, read off the component state *)

Inductive SessionState := Uninitialized | Active | Solved.

#[global] Instance SessionState_eq_dec : EqDecision SessionState.
Proof. solve_decision. Defined.

Definition state_of (p : PuzzleState) : SessionState :=
  if negb (isStarted p) then Uninitialized
  else if isSolved p then Solved else Active.

Record SessionSnapshot := mkSnapshot {
  snap_board : jsarray;
  snap_emptyIndex : Z;
  snap_moves : Z;
  snap_seconds : Z;
  snap_state : SessionState
}.

Definition snapshot (s : App) : SessionSnapshot :=
  let p := puzzle s in
  mkSnapshot (tiles p) (emptyIndex p) (moves p) (seconds p) (state_of p).

(** The solved board of grid size [size]. *)
Definition solved_board (size : GridSize) : list Z := seqZ 0 (gs size * gs size).

(** Rows and columns of the data model: position [p] lies in row
    [p div N] and column [p mod N]. *)
Definition row_of (size : GridSize) (p : Z) : Z := p `div` gs size.
Definition col_of (size : GridSize) (p : Z) : Z := p `mod` gs size.

(** Same row and adjacent column, or same column and adjacent row. *)
Definition adjacent (size : GridSize) (p e : Z) : Prop :=
  (row_of size p = row_of size e ∧ Z.abs (col_of size p - col_of size e) = 1)
  ∨ (col_of size p = col_of size e ∧ Z.abs (row_of size p - row_of size e) = 1).

#[global] Instance adjacent_dec size p e : Decision (adjacent size p e).
Proof. unfold adjacent. apply _. Defined.

(** One step along both axes. *)
Definition diagonal (size : GridSize) (p e : Z) : Prop :=
  Z.abs (row_of size p - row_of size e) = 1
  ∧ Z.abs (col_of size p - col_of size e) = 1.

(** A board of the data model: a permutation of the identifiers. *)
Definition is_board (size : GridSize) (board : list Z) : Prop :=
  board ≡ₚ solved_board size.

#[global] Instance is_board_dec size board : Decision (is_board size board).
Proof. unfold is_board. apply _. Defined.

(** The board with the identifier of the empty slot removed. *)
Definition without_empty (size : GridSize) (board : list Z) : list Z :=
  filter (λ t, t ≠ gs size * gs size - 1) board.

(** The inversions as the specification counts them: the pairs of
    positions [(i, j)], [i < j], whose values are out of order. *)
Definition out_of_order (l : list Z) (ij : nat * nat) : bool :=
  match l !! ij.1, l !! ij.2 with
  | Some a, Some b => bool_decide (ij.1 < ij.2)%nat && bool_decide (a > b)
  | _, _ => false
  end.

Definition inversion_pairs (l : list Z) : list (nat * nat) :=
  List.filter (out_of_order l)
              (list_prod (seq 0 (length l)) (seq 0 (length l))).

Definition inversion_count (l : list Z) : nat := length (inversion_pairs l).

(** [create(N)] of the specification: the difficulty button, then the start
    button ([resetGame] runs [initPuzzle(gridSize)]). *)
Definition create (fuel : nat) (rnd : nat → nat) (size : GridSize) (s : App)
    : option App :=
  initPuzzle fuel rnd size (setGridSize s size).

(** Round [k] of the rejection loop ends it. *)
Definition round_accepts (rnd : nat → nat) (size : GridSize) (k : nat) : bool :=
  let totalTiles := gs size * gs size in
  let initialTiles := seqZ 0 totalTiles in
  let shuffledTiles := shuffle rnd (k * (length initialTiles - 1))%nat initialTiles in
  negb (negb (isSolvable totalTiles shuffledTiles size)
        || json_eq shuffledTiles initialTiles).

(** The test that ends the rejection loop, on one shuffled board. *)
Definition accepted (totalTiles : Z) (size : GridSize)
    (initialTiles shuffledTiles : list Z) : bool :=
  negb (negb (isSolvable totalTiles shuffledTiles size)
        || json_eq shuffledTiles initialTiles).

(** The sessions reached from a created one by moves inside the grid and
    by timer periods. *)
Inductive session_from (s0 : App) : App → Prop :=
| session_created : session_from s0 s0
| session_move s index :
    session_from s0 s →
    0 ≤ index < gs (gridSize s) * gs (gridSize s) →
    session_from s0 (handleTileClick s index)
| session_tick s :
    session_from s0 s → session_from s0 (tick s).

(** Every event the component can receive. *)
Inductive app_step : App → App → Prop :=
| step_init fuel rnd size s s' :
    initPuzzle fuel rnd size s = Some s' → app_step s s'
| step_reset fuel rnd s s' :
    resetGame fuel rnd s = Some s' → app_step s s'
| step_click s index : app_step s (handleTileClick s index)
| step_tick s : app_step s (tick s)
| step_size s size : app_step s (setGridSize s size)
| step_drop s data : app_step s (onDrop s data)
| step_clear s : app_step s (clearImage s).

Definition reachable (s : App) : Prop := rtc app_step initialApp s.

(** ** Invariants *)

(** The interval never runs on a solved puzzle: [handleTileClick] stops it
    in the step that sets [isSolved], and only [initPuzzle], which clears
    [isSolved], starts one. *)
Definition timer_stopped_when_solved (s : App) : Prop :=
  isSolved (puzzle s) = true → timerRef s ≠ Running.

(** While a game is on and unsolved, the interval started by [initPuzzle]
    is running. *)
Definition timer_runs_when_active (s : App) : Prop :=
  isStarted (puzzle s) = true → isSolved (puzzle s) = false → timerRef s = Running.

(** The board is a permutation of the identifiers and [emptyIndex] is where
    it holds the identifier of the empty slot. *)
Definition session_ok (size : GridSize) (s : App) : Prop :=
  gridSize s = size
  ∧ ∃ board : list Z,
      tiles (puzzle s) = dense board
      ∧ is_board size board
      ∧ 0 ≤ emptyIndex (puzzle s) < gs size * gs size
      ∧ board !! Z.to_nat (emptyIndex (puzzle s)) = Some (gs size * gs size - 1).

(** ** Sample states and oracles *)

Definition board7 : list Z := [0; 1; 2; 3; 4; 5; 6; 8; 7].

Definition app7 : App :=
  mkApp (Some "img"%string) Three (mkPuzzle (dense board7) 7 0 0 true false) Running.

(** The same game started without a picture in the state. *)
Definition game7 : App :=
  mkApp None Three (mkPuzzle (dense board7) 7 0 0 true false) Running.

(** The oracle that reads its numbers off a list, 0 afterwards. *)
Definition oracle (draws : list nat) : nat → nat := λ k, default O (draws !! k).

(** ** The view *)

(** [str.padStart(n, '0')] *)
Fixpoint zeros (k : nat) : string :=
  match k with O => EmptyString | S k' => String "0"%char (zeros k') end.

Definition padStart (n : nat) (str : string) : string :=
  zeros (n - String.length str) +:+ str.

(** The clock of the stats display and of the win overlay:
    [{Math.floor(seconds / 60)}:{(seconds % 60).toString().padStart(2, '0')}]. *)
Definition formatTime (seconds : Z) : string :=
  pretty (seconds / 60) +:+ ":" +:+ padStart 2 (pretty (Z.rem seconds 60)).

(** What the grid computes for the button of a tile: whether it is the
    hidden tile, and the row and column of the picture piece it shows
    ([isEmpty], [row], [col] of the [map] callback). *)
Record TileView := mkTileView {
  view_isEmpty : bool;
  view_row : Z;
  view_col : Z
}.

Definition tileView (gridSize : GridSize) (tileValue : Z) : TileView :=
  mkTileView (tileValue =? gs gridSize * gs gridSize - 1)
             (tileValue / gs gridSize)
             (Z.rem tileValue (gs gridSize)).

(** The two decimal digits of a number below 100. *)
Definition digit (d : Z) : ascii := ascii_of_nat (48 + Z.to_nat d).

Definition two_digits (r : Z) : string :=
  String (digit (r `div` 10)) (String (digit (r `mod` 10)) EmptyString).

(** ** The component as the view drives it *)

(** The events of the rendered page.  A tile button exists for the
    positions of [puzzle.tiles] only, so a click carries such a position;
    the start button runs [resetGame]. *)
Inductive ui_step : App → App → Prop :=
| ui_reset fuel rnd s s' :
    resetGame fuel rnd s = Some s' → ui_step s s'
| ui_click s index :
    0 ≤ index < js_length (tiles (puzzle s)) →
    ui_step s (handleTileClick s index)
| ui_tick s : ui_step s (tick s)
| ui_size s size : ui_step s (setGridSize s size)
| ui_drop s data : ui_step s (onDrop s data)
| ui_clear s : ui_step s (clearImage s).

Definition ui_reachable (s : App) : Prop := rtc ui_step initialApp s.

(** Either no game was ever started, or the tiles are a board of the grid
    size [boardSize] the game was started with, [emptyIndex] is where its
    empty slot is, and the flag [isSolved] is up only on the solved board. *)
Definition board_ok (s : App) : Prop :=
  (tiles (puzzle s) = dense [] ∧ isStarted (puzzle s) = false
   ∧ isSolved (puzzle s) = false)
  ∨ ∃ (boardSize : GridSize) (board : list Z),
      tiles (puzzle s) = dense board
      ∧ is_board boardSize board
      ∧ 0 ≤ emptyIndex (puzzle s) < gs boardSize * gs boardSize
      ∧ board !! Z.to_nat (emptyIndex (puzzle s))
        = Some (gs boardSize * gs boardSize - 1)
      ∧ (isSolved (puzzle s) = true → board = solved_board boardSize).

(** The events that do not start a game or load a picture. *)
Inductive idle_event :=
| ClickTile (index : Z)
| TimerPeriod
| ChooseSize (size : GridSize)
| RemovePicture.

Definition idle_apply (s : App) (ev : idle_event) : App :=
  match ev with
  | ClickTile index => handleTileClick s index
  | TimerPeriod => tick s
  | ChooseSize size => setGridSize s size
  | RemovePicture => clearImage s
  end.

#[global] Instance jsarray_eq_dec : EqDecision jsarray.
Proof. solve_decision. Defined.

#[global] Instance PuzzleState_eq_dec : EqDecision PuzzleState.
Proof. solve_decision. Defined.

#[global] Instance App_eq_dec : EqDecision App.
Proof. solve_decision. Defined.

(** The clicks of a run that changed the state. *)
Fixpoint applied_clicks (s : App) (clicks : list Z) : nat :=
  match clicks with
  | [] => O
  | index :: clicks' =>
      ((if decide (handleTileClick s index = s) then 0 else 1)
       + applied_clicks (handleTileClick s index) clicks')%nat
  end.

(** The positions of the grid that pass the test of the handler. *)
Definition legal_targets (size : GridSize) (emptyIdx : Z) : list Z :=
  List.filter (λ index, isAdjacent (gs size) index emptyIdx)
              (seqZ 0 (gs size * gs size)).

(** ** Inversions, by recursion on the list *)

(** The pairs [(a, b)], [a] from [A] and [b] from [B], with [a > b]. *)
Fixpoint cross (A B : list Z) : nat :=
  match A with
  | [] => O
  | a :: A' => (length (List.filter (λ b, (b <? a)%Z) B) + cross A' B)%nat
  end.

Fixpoint inv_rec (l : list Z) : nat :=
  match l with
  | [] => O
  | x :: l' => (length (List.filter (λ y, (y <? x)%Z) l') + inv_rec l')%nat
  end.

(** * Properties *)

(** ** Sample runs *)

Example click8_solves :
  handleTileClick app7 8 =
  mkApp (Some "img"%string) Three
        (mkPuzzle (dense (solved_board Three)) 8 1 0 true true) Cleared.
Proof. reflexivity. Qed.

Example click0_rejected : handleTileClick app7 0 = app7.
Proof. reflexivity. Qed.

Example click10_below_grid :
  puzzle (handleTileClick app7 10) =
  mkPuzzle (JsArray [Some (JNum 0); Some (JNum 1); Some (JNum 2); Some (JNum 3);
                     Some (JNum 4); Some (JNum 5); Some (JNum 6); Some JUndefined;
                     Some (JNum 7); None; Some (JNum 8)] ∅)
           10 1 0 true false.
Proof. reflexivity. Qed.

Example app7_generated :
  initPuzzle 1 (oracle [7; 7; 6; 5; 4; 3; 2; 1]%nat) Three
             (onDrop initialApp "img") = Some app7.
Proof. reflexivity. Qed.

(** ** Grid sizes *)

Lemma gs_pos size : 0 < gs size.
Proof. destruct size; reflexivity. Qed.

Lemma gs_bounds size : 3 ≤ gs size ≤ 5.
Proof. destruct size; simpl; lia. Qed.

Lemma gs_square_bounds size : 9 ≤ gs size * gs size ≤ 25.
Proof. destruct size; simpl; lia. Qed.

Lemma solved_board_length size :
  Z.of_nat (length (solved_board size)) = gs size * gs size.
Proof.
  unfold solved_board. rewrite length_seqZ.
  pose proof (gs_square_bounds size). lia.
Qed.

Lemma is_board_length size board :
  is_board size board → Z.of_nat (length board) = gs size * gs size.
Proof.
  intros Hb. rewrite (Permutation_length Hb). apply solved_board_length.
Qed.

Lemma is_board_NoDup size board : is_board size board → NoDup board.
Proof. intros Hb. rewrite Hb. apply NoDup_seqZ. Qed.

Lemma is_board_elem size board v :
  is_board size board → v ∈ board ↔ 0 ≤ v < gs size * gs size.
Proof.
  intros Hb. rewrite Hb. unfold solved_board. rewrite elem_of_seqZ. lia.
Qed.

(** ** The inversion count of the loops is the number of inverted pairs *)

Lemma filter_none {A} (g : A → bool) (l : list A) :
  (∀ x, In x l → g x = false) → List.filter g l = [].
Proof.
  induction l as [|x l IH]; intros Hg; simpl; [done|].
  rewrite (Hg x) by (left; done). apply IH. intros y Hy. apply Hg. right; done.
Qed.

Section Counting.
Variable f : nat → nat → bool.

Lemma inner_loop_count (js : list nat) (i acc : nat) :
  foldl (λ inversions j, if f i j then S inversions else inversions) acc js
  = (acc + length (List.filter (f i) js))%nat.
Proof.
  revert acc. induction js as [|j js IH]; intros acc; simpl.
  - lia.
  - rewrite IH. destruct (f i j); simpl; lia.
Qed.

Lemma filter_pairs_row (i : nat) (js : list nat) (g : nat * nat → bool) :
  length (List.filter g (List.map (λ j, (i, j)) js))
  = length (List.filter (λ j, g (i, j)) js).
Proof.
  induction js as [|j js IH]; simpl; [done|].
  destruct (g (i, j)); simpl; lia.
Qed.

Lemma filter_above (i n : nat) :
  (i < n)%nat →
  List.filter (λ j, (i <? j)%nat && f i j) (seq 0 n)
  = List.filter (f i) (seq (S i) (n - S i)).
Proof.
  intros Hi.
  replace n with (S i + (n - S i))%nat at 1 by lia.
  rewrite seq_app, List.filter_app. simpl plus.
  assert (List.filter (λ j, (i <? j)%nat && f i j) (seq 0 (S i)) = []) as ->.
  { apply filter_none. intros j Hj.
    apply in_seq in Hj. destruct (Nat.ltb_spec i j); [lia|done]. }
  simpl. apply List.filter_ext_in. intros j Hj.
  apply in_seq in Hj. destruct (Nat.ltb_spec i j); [done|lia].
Qed.

Lemma outer_loop_count (n : nat) (rows : list nat) (acc : nat) :
  Forall (λ i, (i < n)%nat) rows →
  foldl (λ inversions i,
           foldl (λ inversions j, if f i j then S inversions else inversions)
                 inversions (seq (S i) (n - S i)))
        acc rows
  = (acc + length (List.filter (λ ij : nat * nat, (ij.1 <? ij.2)%nat && f ij.1 ij.2)
                               (list_prod rows (seq 0 n))))%nat.
Proof.
  intros Hrows. revert acc. induction Hrows as [|i rows Hi Hrows IH]; intros acc; simpl.
  - lia.
  - rewrite IH, inner_loop_count, List.filter_app, length_app.
    rewrite filter_pairs_row. simpl. rewrite filter_above by done. lia.
Qed.
End Counting.

Lemma out_of_order_gt_at (l : list Z) (ij : nat * nat) :
  out_of_order l ij = (ij.1 <? ij.2)%nat && gt_at l ij.1 ij.2.
Proof.
  unfold out_of_order, gt_at.
  destruct (l !! ij.1) as [a|], (l !! ij.2) as [b|]; simpl;
    rewrite ?andb_false_r; try done.
  f_equal.
  - destruct (Nat.ltb_spec ij.1 ij.2);
      [rewrite bool_decide_eq_true|rewrite bool_decide_eq_false]; lia.
  - destruct (Z.ltb_spec b a);
      [rewrite bool_decide_eq_true|rewrite bool_decide_eq_false]; lia.
Qed.

Lemma count_inversions_spec (l : list Z) :
  count_inversions l = inversion_count l.
Proof.
  unfold count_inversions, inversion_count, inversion_pairs.
  rewrite (outer_loop_count (gt_at l)).
  - simpl. f_equal. apply List.filter_ext. intros ij.
    symmetry. apply out_of_order_gt_at.
  - apply Forall_forall. intros i Hi.
    apply list_elem_of_In, in_seq in Hi. lia.
Qed.

(** ** Facts on [indexOf], [filter] and parities *)

Lemma indexOf_from_first (l : list Z) (x k : Z) (p : nat) :
  l !! p = Some x →
  (∀ q, (q < p)%nat → l !! q ≠ Some x) →
  indexOf_from l x k = k + Z.of_nat p.
Proof.
  revert k p. induction l as [|y l IH]; intros k p Hp Hfirst; [done|].
  simpl. destruct p as [|p]; simpl in Hp.
  - injection Hp as ->. rewrite Z.eqb_refl. lia.
  - destruct (Z.eqb_spec y x) as [->|Hne].
    + exfalso. apply (Hfirst O); [lia|done].
    + rewrite (IH (k + 1) p Hp); [lia|].
      intros q Hq. apply (Hfirst (S q)). lia.
Qed.

Lemma indexOf_NoDup (l : list Z) (x : Z) (p : nat) :
  NoDup l → l !! p = Some x → indexOf l x = Z.of_nat p.
Proof.
  intros Hnd Hp. unfold indexOf.
  rewrite (indexOf_from_first l x 0 p Hp); [lia|].
  intros q Hq Hq'.
  pose proof (NoDup_lookup l q p x Hnd Hq' Hp). lia.
Qed.

Lemma filter_without_empty size (board : list Z) :
  List.filter (λ t, negb (t =? gs size * gs size - 1)) board
  = without_empty size board.
Proof.
  unfold without_empty. induction board as [|t board IH]; [done|].
  simpl. rewrite filter_cons. destruct (Z.eqb_spec t (gs size * gs size - 1)); simpl.
  - rewrite decide_False by (intros H; apply H; done). done.
  - rewrite decide_True by done. by rewrite IH.
Qed.

Lemma rem2_even (x : Z) : (Z.rem x 2 =? 0) = Z.even x.
Proof.
  destruct (Z.even x) eqn:He.
  - apply Z.even_spec in He as [k ->]. rewrite Z.mul_comm, Z.rem_mul by lia. done.
  - apply Z.eqb_neq. intros Hr.
    pose proof (Z.quot_rem' x 2) as Hq. rewrite Hr in Hq.
    assert (Z.even x = true); [|congruence].
    apply Z.even_spec. exists (x ÷ 2). lia.
Qed.

Lemma mod2_even (n : nat) : (n `mod` 2 =? 0)%nat = Nat.even n.
Proof.
  destruct (Nat.even n) eqn:He.
  - apply Nat.even_spec in He as [k ->]. apply Nat.eqb_eq.
    rewrite Nat.mul_comm. apply Nat.Div0.mod_mul.
  - apply Nat.eqb_neq. intros Hr.
    assert (Nat.even n = true); [|congruence].
    apply Nat.even_spec. exists (n / 2)%nat.
    pose proof (Nat.div_mod_eq n 2). lia.
Qed.

(** C2. The solvability test counts, on the board without the identifier of
    the empty slot, the pairs of positions [i < j] whose values are out of
    order; for an odd grid size it answers true exactly when that count is
    even, and for an even grid size it answers the exclusive or of
    "[N] minus the row of the empty slot is even" and "the count is even". *)
Theorem isSolvable_parity_rule size (board : list Z) (p : nat) :
  is_board size board →
  board !! p = Some (gs size * gs size - 1) →
  let totalTiles := gs size * gs size in
  let inversions := inversion_count (without_empty size board) in
  let emptyRow := row_of size (Z.of_nat p) in
  count_inversions (List.filter (λ t, negb (t =? totalTiles - 1)) board) = inversions
  ∧ (Z.odd (gs size) = true →
     isSolvable totalTiles board size = Nat.even inversions)
  ∧ (Z.even (gs size) = true →
     isSolvable totalTiles board size
     = xorb (Z.even (gs size - emptyRow)) (Nat.even inversions)).
Proof.
  intros Hb Hp totalTiles inversions emptyRow.
  assert (count_inversions (List.filter (λ t, negb (t =? totalTiles - 1)) board)
          = inversions) as Hcount.
  { unfold totalTiles. rewrite filter_without_empty. apply count_inversions_spec. }
  split; [exact Hcount|].
  unfold isSolvable. fold totalTiles. rewrite Hcount.
  rewrite (indexOf_NoDup board (totalTiles - 1) p (is_board_NoDup _ _ Hb) Hp).
  fold (row_of size (Z.of_nat p)). fold emptyRow.
  rewrite !rem2_even, !mod2_even, Z.negb_even.
  split; intros Hparity.
  - by rewrite Hparity.
  - rewrite <- Z.negb_even, Hparity. simpl.
    by destruct (Z.even (gs size - emptyRow)), (Nat.even inversions).
Qed.

(** A board of grid size 4 whose empty slot sits in row 1. *)
Lemma isSolvable_parity_rule_witness :
  count_inversions
    (List.filter (λ t, negb (t =? 15))
       [1; 0; 2; 3; 4; 15; 5; 6; 7; 8; 9; 10; 11; 12; 13; 14])
  = inversion_count
      (without_empty Four [1; 0; 2; 3; 4; 15; 5; 6; 7; 8; 9; 10; 11; 12; 13; 14])
  ∧ isSolvable 16 [1; 0; 2; 3; 4; 15; 5; 6; 7; 8; 9; 10; 11; 12; 13; 14] Four
    = xorb (Z.even (4 - 1)) (Nat.even 1).
Proof.
  pose proof (isSolvable_parity_rule Four
    [1; 0; 2; 3; 4; 15; 5; 6; 7; 8; 9; 10; 11; 12; 13; 14] 5%nat) as H.
  destruct H as (Hcount & _ & Heven).
  - apply (bool_decide_unpack _). vm_compute. exact I.
  - reflexivity.
  - split; [exact Hcount|]. exact (Heven eq_refl).
Defined.

(** ** The shuffle permutes *)

Lemma insert_head_Permutation (l : list Z) (j : nat) (b x : Z) :
  l !! j = Some b → b :: <[j := x]> l ≡ₚ x :: l.
Proof.
  revert j. induction l as [|y l IH]; intros j Hj; [done|].
  destruct j as [|j]; simpl in *.
  - injection Hj as ->. apply perm_swap.
  - rewrite perm_swap, (IH j Hj). apply perm_swap.
Qed.

Lemma insert_insert_Permutation (l : list Z) (i j : nat) (a b : Z) :
  i ≠ j → l !! i = Some a → l !! j = Some b →
  <[j := a]> (<[i := b]> l) ≡ₚ l.
Proof.
  revert i j. induction l as [|x l IH]; intros i j Hij Hi Hj; [done|].
  destruct i as [|i], j as [|j]; simpl in *; try done.
  - injection Hi as ->. by apply insert_head_Permutation.
  - injection Hj as ->. by apply insert_head_Permutation.
  - f_equiv. apply IH; [lia|done..].
Qed.

Lemma swap_Permutation (l : list Z) (i j : nat) : swap l i j ≡ₚ l.
Proof.
  unfold swap.
  destruct (l !! i) as [a|] eqn:Hi; [|done].
  destruct (l !! j) as [b|] eqn:Hj; [|done].
  destruct (decide (i = j)) as [->|Hij].
  - assert (a = b) as -> by congruence.
    rewrite (list_insert_id l j b Hj). by rewrite (list_insert_id l j b Hj).
  - by apply insert_insert_Permutation.
Qed.

(** Inside the array, [swap] exchanges the two entries and nothing else. *)
Lemma swap_lookup (l : list Z) (i j k : nat) :
  (i < length l)%nat → (j < length l)%nat →
  swap l i j !! k =
  if decide (k = j) then l !! i else if decide (k = i) then l !! j else l !! k.
Proof.
  intros Hi Hj. unfold swap.
  destruct (lookup_lt_is_Some_2 l i Hi) as [a Ha].
  destruct (lookup_lt_is_Some_2 l j Hj) as [b Hb].
  rewrite Ha, Hb.
  destruct (decide (k = j)) as [->|Hkj].
  - rewrite list_lookup_insert_eq; [done|]. by rewrite length_insert.
  - rewrite list_lookup_insert_ne by done.
    destruct (decide (k = i)) as [->|Hki].
    + by rewrite list_lookup_insert_eq.
    + by rewrite list_lookup_insert_ne.
Qed.

Lemma shuffle_loop_Permutation rnd pos i (l : list Z) :
  shuffle_loop rnd pos i l ≡ₚ l.
Proof.
  revert pos l. induction i as [|i IH]; intros pos l; simpl; [done|].
  rewrite IH. apply swap_Permutation.
Qed.

Lemma shuffle_Permutation rnd pos (l : list Z) : shuffle rnd pos l ≡ₚ l.
Proof. apply shuffle_loop_Permutation. Qed.

(** Every round of [shuffle] reads and writes inside the array: with
    [i] inside, so is the drawn [j], and the exchange is the two writes of
    the source. *)
Lemma shuffle_swap_inside (l : list Z) (r i : nat) :
  (i < length l)%nat →
  ∃ a b : Z,
    l !! i = Some a ∧ l !! (r `mod` (i + 1))%nat = Some b
    ∧ swap l i (r `mod` (i + 1)) = <[(r `mod` (i + 1))%nat := a]> (<[i := b]> l).
Proof.
  intros Hi.
  pose proof (Nat.mod_upper_bound r (i + 1)) as Hj.
  destruct (lookup_lt_is_Some_2 l i Hi) as [a Ha].
  destruct (lookup_lt_is_Some_2 l (r `mod` (i + 1))%nat) as [b Hb]; [lia|].
  exists a, b. unfold swap. by rewrite Ha, Hb.
Qed.

(** ** The rejection loop *)

Lemma shuffle_until_Some fuel rnd pos totalTiles size initialTiles board :
  shuffle_until fuel rnd pos totalTiles size initialTiles = Some board →
  ∃ pos', board = shuffle rnd pos' initialTiles
          ∧ isSolvable totalTiles board size = true
          ∧ board ≠ initialTiles.
Proof.
  revert pos. induction fuel as [|fuel IH]; intros pos Hrun; [done|].
  simpl in Hrun.
  destruct (negb (isSolvable totalTiles (shuffle rnd pos initialTiles) size)
            || json_eq (shuffle rnd pos initialTiles) initialTiles) eqn:Hcond.
  - by apply IH in Hrun.
  - injection Hrun as <-. exists pos.
    apply orb_false_elim in Hcond as [Hsolv Hjson].
    apply negb_false_iff in Hsolv.
    unfold json_eq in Hjson. apply bool_decide_eq_false in Hjson. done.
Qed.

(** The loop ends as soon as a round is accepted: with an accepted round
    [k], any fuel above [k] yields a board. *)
Lemma shuffle_until_ends rnd totalTiles size initialTiles (k : nat) :
  ∀ fuel pos,
    (k < fuel)%nat →
    (let shuffledTiles :=
       shuffle rnd (pos + k * (length initialTiles - 1))%nat initialTiles in
     negb (negb (isSolvable totalTiles shuffledTiles size)
           || json_eq shuffledTiles initialTiles) = true) →
    is_Some (shuffle_until fuel rnd pos totalTiles size initialTiles).
Proof.
  induction k as [|k IH]; intros fuel pos Hfuel Hacc;
    (destruct fuel as [|fuel]; [lia|]); simpl in *.
  - rewrite Nat.add_0_r in Hacc. apply negb_true_iff in Hacc.
    rewrite Hacc. by eexists.
  - destruct (negb (isSolvable totalTiles (shuffle rnd pos initialTiles) size)
              || json_eq (shuffle rnd pos initialTiles) initialTiles);
      [|by eexists].
    apply IH; [lia|].
    replace (pos + (length initialTiles - 1) + k * (length initialTiles - 1))%nat
      with (pos + (length initialTiles - 1 + k * (length initialTiles - 1)))%nat
      by lia.
    exact Hacc.
Qed.

Lemma create_returns fuel rnd size s (k : nat) :
  round_accepts rnd size k = true → (k < fuel)%nat →
  is_Some (create fuel rnd size s).
Proof.
  intros Hacc Hfuel. unfold create, initPuzzle.
  destruct (shuffle_until_ends rnd (gs size * gs size) size
              (seqZ 0 (gs size * gs size)) k fuel 0%nat Hfuel) as [board Hboard].
  { exact Hacc. }
  rewrite Hboard. by eexists.
Qed.

(** For every grid size some run of the random source is accepted at once. *)
Lemma some_round_accepts size : ∃ rnd, round_accepts rnd size 0 = true.
Proof.
  destruct size.
  - exists (oracle [7; 7; 6; 5; 4; 3; 2; 1]%nat). reflexivity.
  - exists (oracle []). reflexivity.
  - exists (oracle [23; 23; 22; 21; 20; 19; 18; 17; 16; 15; 14; 13; 12; 11; 10;
                    9; 8; 7; 6; 5; 4; 3; 2; 1]%nat). vm_compute. reflexivity.
Qed.

Lemma is_board_position size (board : list Z) (v : Z) :
  is_board size board → 0 ≤ v < gs size * gs size →
  ∃ p : nat, board !! p = Some v
             ∧ Z.of_nat p < gs size * gs size
             ∧ indexOf board v = Z.of_nat p
             ∧ ∀ q : nat, board !! q = Some v → q = p.
Proof.
  intros Hb Hv.
  pose proof (is_board_NoDup _ _ Hb) as Hnd.
  apply (is_board_elem _ _ _ Hb), list_elem_of_lookup in Hv as [p Hp].
  exists p. repeat split; [done| | |].
  - apply lookup_lt_Some in Hp. rewrite <- (is_board_length _ _ Hb). lia.
  - by apply indexOf_NoDup.
  - intros q Hq. exact (NoDup_lookup board q p v Hnd Hq Hp).
Qed.

(** What [initPuzzle] leaves behind when its loop has ended. *)
Lemma initPuzzle_stores fuel rnd size s s' :
  initPuzzle fuel rnd size s = Some s' →
  ∃ board : list Z,
    s' = mkApp (image s) (gridSize s)
               (mkPuzzle (dense board) (indexOf board (gs size * gs size - 1))
                         0 0 true false)
               Running
    ∧ is_board size board
    ∧ board ≠ solved_board size
    ∧ isSolvable (gs size * gs size) board size = true.
Proof.
  intros Hinit. unfold initPuzzle in Hinit.
  destruct (shuffle_until fuel rnd 0 (gs size * gs size) size
              (seqZ 0 (gs size * gs size))) as [board|] eqn:Hrun; [|done].
  injection Hinit as <-.
  apply shuffle_until_Some in Hrun as (pos & -> & Hsolv & Hne).
  eexists. split; [done|]. split; [apply shuffle_Permutation|done].
Qed.

(** C1. Every board that [initPuzzle] stores is a permutation of the
    identifiers [0 .. N*N-1] with each of them at exactly one position, is
    not the solved board, passes the solvability test, and comes with the
    [emptyIndex] at which the board holds [N*N-1]. *)
Theorem generated_board_valid size fuel rnd s s' :
  initPuzzle fuel rnd size s = Some s' →
  let totalTiles := gs size * gs size in
  ∃ board : list Z,
    tiles (puzzle s') = dense board
    ∧ is_board size board
    ∧ (∀ v, 0 ≤ v < totalTiles →
            ∃ p : nat, board !! p = Some v ∧ ∀ q : nat, board !! q = Some v → q = p)
    ∧ board ≠ solved_board size
    ∧ isSolvable totalTiles board size = true
    ∧ 0 ≤ emptyIndex (puzzle s') < totalTiles
    ∧ board !! Z.to_nat (emptyIndex (puzzle s')) = Some (totalTiles - 1).
Proof.
  intros Hinit totalTiles.
  apply initPuzzle_stores in Hinit as (board & -> & Hb & Hne & Hsolv). simpl.
  exists board. split; [done|]. split; [done|]. split; [|split; [done|split; [done|]]].
  - intros v Hv. destruct (is_board_position size board v Hb Hv) as (p & Hp & _ & _ & Hu).
    by exists p.
  - pose proof (gs_square_bounds size).
    destruct (is_board_position size board (totalTiles - 1) Hb) as (p & Hp & Hlt & Hidx & _).
    { unfold totalTiles. lia. }
    fold totalTiles. rewrite Hidx, Nat2Z.id. split; [lia|done].
Qed.

(** The run that shuffles the 3x3 board into [board7]. *)
Lemma generated_board_valid_witness :
  ∃ board : list Z,
    tiles (puzzle app7) = dense board
    ∧ is_board Three board
    ∧ (∀ v, 0 ≤ v < 9 →
            ∃ p : nat, board !! p = Some v ∧ ∀ q : nat, board !! q = Some v → q = p)
    ∧ board ≠ solved_board Three
    ∧ isSolvable 9 board Three = true
    ∧ 0 ≤ emptyIndex (puzzle app7) < 9
    ∧ board !! Z.to_nat (emptyIndex (puzzle app7)) = Some 8.
Proof.
  apply (generated_board_valid Three 1 (oracle [7; 7; 6; 5; 4; 3; 2; 1]%nat)
           (onDrop initialApp "img") app7).
  reflexivity.
Defined.

(** ** Arrays of numbers as JavaScript arrays *)

Lemma in_grid_is_array_index size (k : Z) :
  0 ≤ k < gs size * gs size → is_array_index k = true.
Proof.
  intros Hk. pose proof (gs_square_bounds size). unfold is_array_index.
  apply andb_true_iff. split; [apply Z.leb_le|apply Z.ltb_lt]; lia.
Qed.

Lemma js_spread_dense (l : list Z) : js_spread (dense l) = dense l.
Proof.
  unfold js_spread, dense. simpl. f_equal.
  rewrite <- list_fmap_compose. by apply list_fmap_ext.
Qed.

Lemma js_get_dense (l : list Z) (k : Z) :
  is_array_index k = true →
  js_get (dense l) k = from_option JNum JUndefined (l !! Z.to_nat k).
Proof.
  intros Hk. unfold js_get, dense. simpl. rewrite Hk, list_lookup_fmap.
  by destruct (l !! Z.to_nat k).
Qed.

Lemma js_set_dense (l : list Z) (k x : Z) :
  is_array_index k = true → k < Z.of_nat (length l) →
  js_set (dense l) k (JNum x) = dense (<[Z.to_nat k := x]> l).
Proof.
  intros Hk Hlen. unfold js_set, js_length, dense. simpl.
  rewrite Hk, length_fmap.
  destruct (Z.ltb_spec k (Z.of_nat (length l))); [|lia].
  by rewrite list_fmap_insert.
Qed.

Lemma every_from_dense (l : list Z) (i : Z) :
  every_from strict_eq_num ((λ n, Some (JNum n)) <$> l) i
  = bool_decide (l = seqZ i (Z.of_nat (length l))).
Proof.
  revert i. induction l as [|x l IH]; intros i.
  - reflexivity.
  - simpl length. rewrite seqZ_cons by lia.
    replace (Z.pred (Z.of_nat (S (length l)))) with (Z.of_nat (length l)) by lia.
    simpl. rewrite IH. replace (Z.succ i) with (i + 1) by lia.
    destruct (Z.eqb_spec x i) as [->|Hne]; simpl.
    + apply bool_decide_ext. split; [intros H; by f_equal|intros H; by injection H].
    + symmetry. apply bool_decide_eq_false. intros H. by injection H.
Qed.

Lemma js_every_dense (l : list Z) :
  js_every strict_eq_num (dense l) = bool_decide (l = seqZ 0 (Z.of_nat (length l))).
Proof. apply every_from_dense. Qed.

(** ** The adjacency test *)


Lemma isAdjacent_true (n index emptyIdx : Z) :
  isAdjacent n index emptyIdx = true ↔
  (Z.abs (index / n - emptyIdx / n) = 1 ∧ Z.rem index n = Z.rem emptyIdx n)
  ∨ (Z.abs (Z.rem index n - Z.rem emptyIdx n) = 1 ∧ index / n = emptyIdx / n).
Proof.
  unfold isAdjacent.
  rewrite orb_true_iff, !andb_true_iff, !Z.eqb_eq. done.
Qed.

(** Inside the grid the test of the handler is the adjacency of the data
    model. *)
Lemma isAdjacent_in_grid size (index emptyIdx : Z) :
  0 ≤ index → 0 ≤ emptyIdx →
  isAdjacent (gs size) index emptyIdx = true ↔ adjacent size index emptyIdx.
Proof.
  intros Hi He. pose proof (gs_pos size).
  rewrite isAdjacent_true. unfold adjacent, row_of, col_of.
  rewrite !Z.rem_mod_nonneg by lia. tauto.
Qed.

(** Outside the grid the test still passes at two places: one row below the
    empty slot, and one row above an empty slot in the first cell. *)
Lemma isAdjacent_off_grid size (index emptyIdx : Z) :
  0 ≤ emptyIdx < gs size * gs size →
  index < 0 ∨ gs size * gs size ≤ index →
  isAdjacent (gs size) index emptyIdx = true ↔
  index = emptyIdx + gs size ∨ (index = - gs size ∧ emptyIdx = 0).
Proof.
  intros He Hi. rewrite isAdjacent_true.
  destruct size; simpl gs in *; Z.to_euclidean_division_equations; lia.
Qed.

Lemma own_position_not_adjacent size (e : Z) : ¬ adjacent size e e.
Proof. unfold adjacent. lia. Qed.

Lemma diagonal_not_adjacent size (p e : Z) : diagonal size p e → ¬ adjacent size p e.
Proof. unfold diagonal, adjacent. lia. Qed.

(** ** Moves *)

Lemma state_of_Active p :
  state_of p = Active ↔ isStarted p = true ∧ isSolved p = false.
Proof.
  unfold state_of. destruct (isStarted p), (isSolved p); simpl; intuition congruence.
Qed.

Lemma state_of_Solved p :
  state_of p = Solved ↔ isStarted p = true ∧ isSolved p = true.
Proof.
  unfold state_of. destruct (isStarted p), (isSolved p); simpl; intuition congruence.
Qed.

Lemma swap_length (l : list Z) (i j : nat) : length (swap l i j) = length l.
Proof. apply Permutation_length, swap_Permutation. Qed.

(** The handler on a legal move inside the grid, in one equation. *)
Lemma handleTileClick_in_grid s index (board : list Z) :
  let size := gridSize s in
  let e := emptyIndex (puzzle s) in
  let board' := swap board (Z.to_nat index) (Z.to_nat e) in
  let solved := bool_decide (board' = solved_board size) in
  state_of (puzzle s) = Active →
  tiles (puzzle s) = dense board →
  Z.of_nat (length board) = gs size * gs size →
  0 ≤ e < gs size * gs size →
  0 ≤ index < gs size * gs size →
  adjacent size index e →
  handleTileClick s index =
  mkApp (image s) size
        (mkPuzzle (dense board') index (moves (puzzle s) + 1) (seconds (puzzle s))
                  true solved)
        (if solved then clearTimer (timerRef s) else timerRef s).
Proof.
  intros size e board' solved Hact Htiles Hlen He Hi Hadj.
  apply state_of_Active in Hact as [Hstarted Hsolved].
  unfold handleTileClick. rewrite Hstarted, Hsolved. simpl.
  fold size e.
  apply (isAdjacent_in_grid size) in Hadj as ->; [|lia..].
  rewrite Htiles, js_spread_dense.
  pose proof (in_grid_is_array_index size index Hi) as Hidx.
  pose proof (in_grid_is_array_index size e He) as Hidxe.
  rewrite !js_get_dense by done.
  destruct (lookup_lt_is_Some_2 board (Z.to_nat index)) as [b Hb]; [lia|].
  destruct (lookup_lt_is_Some_2 board (Z.to_nat e)) as [a Ha]; [lia|].
  rewrite Ha, Hb. simpl.
  rewrite js_set_dense by (done || lia).
  rewrite js_set_dense by (done || rewrite length_insert; lia).
  assert (<[Z.to_nat e := b]> (<[Z.to_nat index := a]> board) = board') as ->.
  { unfold board', swap. by rewrite Hb, Ha. }
  rewrite js_every_dense.
  replace (Z.of_nat (length board')) with (gs size * gs size)
    by (unfold board'; rewrite swap_length; lia).
  done.
Qed.

(** C3. On an Active session, a target position inside the grid that is
    adjacent to the empty slot by row or column is applied: the board
    entries at the target and at the empty slot are exchanged and no other
    entry changes, the move count grows by exactly 1, [emptyIndex] becomes
    the target, and the session is Solved exactly when the new board is the
    identity (it stays Active otherwise). *)
Theorem legal_move_applied s index (board : list Z) :
  let size := gridSize s in
  let e := emptyIndex (puzzle s) in
  state_of (puzzle s) = Active →
  tiles (puzzle s) = dense board →
  Z.of_nat (length board) = gs size * gs size →
  0 ≤ e < gs size * gs size →
  0 ≤ index < gs size * gs size →
  adjacent size index e →
  let s' := handleTileClick s index in
  ∃ board' : list Z,
    tiles (puzzle s') = dense board'
    ∧ length board' = length board
    ∧ board' !! Z.to_nat index = board !! Z.to_nat e
    ∧ board' !! Z.to_nat e = board !! Z.to_nat index
    ∧ (∀ k : nat, k ≠ Z.to_nat index → k ≠ Z.to_nat e → board' !! k = board !! k)
    ∧ moves (puzzle s') = moves (puzzle s) + 1
    ∧ emptyIndex (puzzle s') = index
    ∧ seconds (puzzle s') = seconds (puzzle s)
    ∧ (state_of (puzzle s') = Solved ↔ board' = solved_board size)
    ∧ (state_of (puzzle s') = Active ↔ board' ≠ solved_board size).
Proof.
  intros size e Hact Htiles Hlen He Hi Hadj s'.
  pose proof (handleTileClick_in_grid s index board Hact Htiles Hlen He Hi Hadj) as Heq.
  fold s' size e in Heq. rewrite Heq. simpl.
  set (board' := swap board (Z.to_nat index) (Z.to_nat e)).
  assert (Z.to_nat index ≠ Z.to_nat e) as Hne.
  { intros Hsame. apply (own_position_not_adjacent size e).
    replace e with index at 1 by lia. done. }
  exists board'. split; [done|]. split; [apply swap_length|].
  repeat split.
  - unfold board'. rewrite swap_lookup by lia.
    rewrite decide_False by done. by rewrite decide_True.
  - unfold board'. rewrite swap_lookup by lia. by rewrite decide_True.
  - intros k Hk1 Hk2. unfold board'. rewrite swap_lookup by lia.
    by rewrite !decide_False.
  - rewrite state_of_Solved. simpl. intros [_ H]. by apply bool_decide_eq_true in H.
  - intros H. apply state_of_Solved. simpl. split; [done|]. by apply bool_decide_eq_true.
  - rewrite state_of_Active. simpl. intros [_ H]. by apply bool_decide_eq_false in H.
  - intros H. apply state_of_Active. simpl. split; [done|]. by apply bool_decide_eq_false.
Qed.

(** The scenario of the specification: grid size 3, board
    [0,1,2,3,4,5,6,8,7], empty slot at 7, move at 8. *)
Lemma legal_move_applied_witness :
  (∃ board' : list Z,
     tiles (puzzle (handleTileClick app7 8)) = dense board'
     ∧ length board' = length board7
     ∧ board' !! 8%nat = board7 !! 7%nat
     ∧ board' !! 7%nat = board7 !! 8%nat
     ∧ (∀ k : nat, k ≠ 8%nat → k ≠ 7%nat → board' !! k = board7 !! k)
     ∧ moves (puzzle (handleTileClick app7 8)) = moves (puzzle app7) + 1
     ∧ emptyIndex (puzzle (handleTileClick app7 8)) = 8
     ∧ seconds (puzzle (handleTileClick app7 8)) = seconds (puzzle app7)
     ∧ (state_of (puzzle (handleTileClick app7 8)) = Solved
        ↔ board' = solved_board Three)
     ∧ (state_of (puzzle (handleTileClick app7 8)) = Active
        ↔ board' ≠ solved_board Three))
  ∧ snapshot (handleTileClick app7 8)
    = mkSnapshot (dense [0; 1; 2; 3; 4; 5; 6; 7; 8]) 8 1 0 Solved.
Proof.
  split; [|reflexivity].
  apply (legal_move_applied app7 8 board7).
  - reflexivity.
  - reflexivity.
  - reflexivity.
  - simpl. lia.
  - simpl. lia.
  - left. split; reflexivity.
Defined.

Lemma handleTileClick_cases s index :
  handleTileClick s index = s
  ∨ (state_of (puzzle s) = Active
     ∧ isAdjacent (gs (gridSize s)) index (emptyIndex (puzzle s)) = true).
Proof.
  unfold handleTileClick.
  destruct (negb (isStarted (puzzle s)) || isSolved (puzzle s)) eqn:Hguard; [by left|].
  destruct (isAdjacent _ _ _) eqn:Hadj; [right|by left].
  apply orb_false_elim in Hguard as [Hst Hso]. apply negb_false_iff in Hst.
  split; [by apply state_of_Active|done].
Qed.

Lemma handleTileClick_not_adjacent s index :
  isAdjacent (gs (gridSize s)) index (emptyIndex (puzzle s)) = false →
  handleTileClick s index = s.
Proof.
  intros Hadj. destruct (handleTileClick_cases s index) as [?|[_ H]]; [done|congruence].
Qed.

(** An applied move always shows in the move count. *)
Lemma handleTileClick_adjacent_moves s index :
  state_of (puzzle s) = Active →
  isAdjacent (gs (gridSize s)) index (emptyIndex (puzzle s)) = true →
  moves (puzzle (handleTileClick s index)) = moves (puzzle s) + 1
  ∧ emptyIndex (puzzle (handleTileClick s index)) = index.
Proof.
  intros [Hst Hso]%state_of_Active Hadj.
  unfold handleTileClick. rewrite Hst, Hso, Hadj. done.
Qed.

(** C5. On an Active session, a target position inside the grid that is
    not adjacent to the empty slot by row or column (a diagonal neighbour
    and the position of the empty slot itself are such positions) is
    rejected: the whole state, and with it the snapshot, stays as it was;
    the handler has no error outcome. *)
Theorem illegal_move_rejected s index :
  let size := gridSize s in
  let e := emptyIndex (puzzle s) in
  state_of (puzzle s) = Active →
  0 ≤ e < gs size * gs size →
  0 ≤ index < gs size * gs size →
  ¬ adjacent size index e ∨ diagonal size index e ∨ index = e →
  handleTileClick s index = s
  ∧ snapshot (handleTileClick s index) = snapshot s.
Proof.
  intros size e Hact He Hi Hnot.
  assert (¬ adjacent size index e) as Hna.
  { destruct Hnot as [H|[H| ->]]; [done|by apply diagonal_not_adjacent|].
    apply own_position_not_adjacent. }
  assert (handleTileClick s index = s) as Heq.
  { apply handleTileClick_not_adjacent. apply not_true_is_false.
    intros Hadj. apply Hna. apply isAdjacent_in_grid; [lia..|done]. }
  by rewrite Heq.
Qed.

(** The scenario of the specification: grid size 3, empty slot at 7,
    a click at 0. *)
Lemma illegal_move_rejected_witness :
  handleTileClick app7 0 = app7
  ∧ snapshot (handleTileClick app7 0) = snapshot app7.
Proof.
  apply (illegal_move_rejected app7 0).
  - reflexivity.
  - simpl. lia.
  - simpl. lia.
  - left. apply (bool_decide_eq_false_1 _). vm_compute. reflexivity.
Defined.

(** C8. While the session is Uninitialized or Solved a move is ignored,
    whatever the target position: the state and the snapshot stay as they
    were; the handler has no error outcome. *)
Theorem move_ignored_unless_active s index :
  state_of (puzzle s) = Uninitialized ∨ state_of (puzzle s) = Solved →
  handleTileClick s index = s
  ∧ snapshot (handleTileClick s index) = snapshot s.
Proof.
  intros Hst.
  assert (handleTileClick s index = s) as Heq.
  { destruct (handleTileClick_cases s index) as [?|[Hact _]]; [done|].
    destruct Hst as [H|H]; congruence. }
  by rewrite Heq.
Qed.

(** Before any game was started, with a position outside any grid. *)
Lemma move_ignored_unless_active_witness :
  handleTileClick initialApp (-1) = initialApp
  ∧ snapshot (handleTileClick initialApp (-1)) = snapshot initialApp.
Proof.
  apply (move_ignored_unless_active initialApp (-1)).
  left. reflexivity.
Defined.

(** The position 10 lies outside the 3x3 grid, one row below the empty
    slot at 7, and the click is applied as a move. *)
Lemma out_of_range_move_applied :
  gs (gridSize app7) * gs (gridSize app7) ≤ 10
  ∧ state_of (puzzle app7) = Active
  ∧ snapshot (handleTileClick app7 10) ≠ snapshot app7.
Proof.
  split; [simpl; lia|]. split; [reflexivity|].
  intros H. discriminate H.
Qed.

(** The same above the grid: with the empty slot in the first cell, the
    position [-3] passes the test of the handler. *)
Example negative_move_applied :
  let s := mkApp None Three
                 (mkPuzzle (dense [8; 1; 2; 3; 4; 5; 6; 7; 0]) 0 0 0 true false)
                 Running in
  snapshot (handleTileClick s (-3))
  = mkSnapshot (JsArray [Some JUndefined; Some (JNum 1); Some (JNum 2);
                         Some (JNum 3); Some (JNum 4); Some (JNum 5);
                         Some (JNum 6); Some (JNum 7); Some (JNum 0)]
                        {[ -3 := JNum 8 ]})
               (-3) 1 0 Active.
Proof. reflexivity. Qed.

(** C7, as the handler has it. A target position outside the grid (negative,
    or [N*N] and above) raises no error and is ignored when the session is
    not Active; on an Active session whose empty slot is inside the grid it
    leaves the snapshot unchanged exactly when it is neither
    [emptyIndex + N] nor [-N] with the empty slot at 0. *)
Theorem out_of_range_move s index :
  let size := gridSize s in
  let e := emptyIndex (puzzle s) in
  index < 0 ∨ gs size * gs size ≤ index →
  (state_of (puzzle s) ≠ Active → handleTileClick s index = s)
  ∧ (state_of (puzzle s) = Active → 0 ≤ e < gs size * gs size →
     (¬ (index = e + gs size ∨ (index = - gs size ∧ e = 0)) →
      handleTileClick s index = s)
     ∧ (snapshot (handleTileClick s index) = snapshot s
        ↔ ¬ (index = e + gs size ∨ (index = - gs size ∧ e = 0)))).
Proof.
  intros size e Hout. split.
  - intros Hna. destruct (handleTileClick_cases s index) as [?|[Hact _]]; done.
  - intros Hact He.
    pose proof (isAdjacent_off_grid size index e He Hout) as Hadj.
    assert (¬ (index = e + gs size ∨ index = - gs size ∧ e = 0) →
            handleTileClick s index = s) as Hnoop.
    { intros Hno. apply handleTileClick_not_adjacent. apply not_true_is_false.
      intros H. apply Hno, Hadj, H. }
    split; [done|]. split.
    + intros Hsnap Hyes. apply Hadj in Hyes.
      destruct (handleTileClick_adjacent_moves s index Hact Hyes) as [Hmoves _].
      apply (f_equal snap_moves) in Hsnap. simpl in Hsnap. lia.
    + intros Hno. by rewrite Hnoop.
Qed.

(** Two rows below the 3x3 grid. *)
Lemma out_of_range_move_witness :
  handleTileClick app7 13 = app7
  ∧ (snapshot (handleTileClick app7 13) = snapshot app7
     ↔ ¬ (13 = 7 + 3 ∨ (13 = - 3 ∧ 7 = 0))).
Proof.
  destruct (out_of_range_move app7 13) as [_ H].
  - right. simpl. lia.
  - destruct H as [Hnoop Hiff].
    + reflexivity.
    + simpl. lia.
    + split; [apply Hnoop; simpl; lia|exact Hiff].
Defined.

(** ** The timer *)

(** C10. A timer period on an Active session leaves the board,
    [emptyIndex], the move count and the flags behind the session state as
    they were (so the session stays Active); only [seconds] moves, by one
    when the interval is running. *)
Theorem tick_changes_only_seconds s :
  state_of (puzzle s) = Active →
  tiles (puzzle (tick s)) = tiles (puzzle s)
  ∧ emptyIndex (puzzle (tick s)) = emptyIndex (puzzle s)
  ∧ moves (puzzle (tick s)) = moves (puzzle s)
  ∧ isStarted (puzzle (tick s)) = isStarted (puzzle s)
  ∧ isSolved (puzzle (tick s)) = isSolved (puzzle s)
  ∧ state_of (puzzle (tick s)) = Active
  ∧ gridSize (tick s) = gridSize s
  ∧ image (tick s) = image s
  ∧ timerRef (tick s) = timerRef s
  ∧ (timerRef s = Running → seconds (puzzle (tick s)) = seconds (puzzle s) + 1).
Proof.
  intros Hact. unfold tick.
  destruct (timerRef s) eqn:Ht; simpl; repeat split; try done.
Qed.

(** The started 3x3 game. *)
Lemma tick_changes_only_seconds_witness :
  tiles (puzzle (tick app7)) = tiles (puzzle app7)
  ∧ emptyIndex (puzzle (tick app7)) = emptyIndex (puzzle app7)
  ∧ moves (puzzle (tick app7)) = moves (puzzle app7)
  ∧ isStarted (puzzle (tick app7)) = isStarted (puzzle app7)
  ∧ isSolved (puzzle (tick app7)) = isSolved (puzzle app7)
  ∧ state_of (puzzle (tick app7)) = Active
  ∧ gridSize (tick app7) = gridSize app7
  ∧ image (tick app7) = image app7
  ∧ timerRef (tick app7) = timerRef app7
  ∧ (timerRef app7 = Running →
     seconds (puzzle (tick app7)) = seconds (puzzle app7) + 1).
Proof.
  apply (tick_changes_only_seconds app7). reflexivity.
Defined.


Lemma clearTimer_not_Running t : clearTimer t ≠ Running.
Proof. by destruct t. Qed.

Lemma initPuzzle_not_solved fuel rnd size s s' :
  initPuzzle fuel rnd size s = Some s' → isSolved (puzzle s') = false.
Proof. intros (board & -> & _)%initPuzzle_stores. done. Qed.

Lemma handleTileClick_timer s index :
  timer_stopped_when_solved s → timer_stopped_when_solved (handleTileClick s index).
Proof.
  intros Hinv. unfold handleTileClick.
  destruct (negb (isStarted (puzzle s)) || isSolved (puzzle s)); [done|].
  destruct (isAdjacent _ _ _); [|done].
  unfold timer_stopped_when_solved. simpl. intros ->.
  apply clearTimer_not_Running.
Qed.

Lemma app_step_timer s s' :
  app_step s s' → timer_stopped_when_solved s → timer_stopped_when_solved s'.
Proof.
  intros Hstep Hinv. destruct Hstep as
    [fuel rnd size s s' Hinit|fuel rnd s s' Hreset|s index|s|s size|s data|s].
  - intros Hsolved. apply initPuzzle_not_solved in Hinit. congruence.
  - unfold resetGame in Hreset. destruct (image s).
    + intros Hsolved. apply initPuzzle_not_solved in Hreset. congruence.
    + by injection Hreset as <-.
  - by apply handleTileClick_timer.
  - unfold tick. destruct (timerRef s) eqn:Ht; [done| |done].
    intros Hsolved. simpl in Hsolved. specialize (Hinv Hsolved). congruence.
  - done.
  - intros Hsolved. done.
  - done.
Qed.

Lemma reachable_timer s : reachable s → timer_stopped_when_solved s.
Proof.
  unfold reachable. revert s. apply rtc_ind_r.
  - done.
  - intros s s' _ Hstep Hinv. by eapply app_step_timer.
Qed.

Lemma tick_stopped s : timerRef s ≠ Running → tick s = s.
Proof. unfold tick. by destruct (timerRef s). Qed.

(** The solved 3x3 game is reached: picture, start, one move. *)
Lemma solved_game_reachable : reachable (handleTileClick app7 8).
Proof.
  unfold reachable.
  eapply rtc_l; [apply (step_drop initialApp "img")|].
  eapply rtc_l;
    [apply (step_reset 1 (oracle [7; 7; 6; 5; 4; 3; 2; 1]%nat) _ app7); reflexivity|].
  apply rtc_once. apply step_click.
Qed.

(** C6. In every state the component can reach, once the session is Solved
    a timer period changes nothing, however many follow: [seconds] keeps
    the value it had when the puzzle was solved. *)
Theorem tick_after_solved s :
  reachable s →
  state_of (puzzle s) = Solved →
  tick s = s
  ∧ ∀ n : nat,
      Nat.iter n tick s = s
      ∧ snapshot (Nat.iter n tick s) = snapshot s
      ∧ seconds (puzzle (Nat.iter n tick s)) = seconds (puzzle s).
Proof.
  intros Hreach [_ Hsolved]%state_of_Solved.
  assert (tick s = s) as Htick.
  { apply tick_stopped. by apply reachable_timer. }
  split; [done|].
  assert (∀ n : nat, Nat.iter n tick s = s) as Hiter.
  { induction n as [|n IH]; [done|]. simpl. by rewrite IH. }
  intros n. by rewrite Hiter.
Qed.

(** The 3x3 game solved by its first move. *)
Lemma tick_after_solved_witness :
  tick (handleTileClick app7 8) = handleTileClick app7 8
  ∧ ∀ n : nat,
      Nat.iter n tick (handleTileClick app7 8) = handleTileClick app7 8
      ∧ snapshot (Nat.iter n tick (handleTileClick app7 8))
        = snapshot (handleTileClick app7 8)
      ∧ seconds (puzzle (Nat.iter n tick (handleTileClick app7 8)))
        = seconds (puzzle (handleTileClick app7 8)).
Proof.
  apply (tick_after_solved (handleTileClick app7 8)).
  - exact solved_game_reachable.
  - reflexivity.
Defined.

(** ** The session invariant *)


Lemma create_session_ok fuel rnd size s s0 :
  create fuel rnd size s = Some s0 → session_ok size s0.
Proof.
  unfold create. intros (board & -> & Hb & _)%initPuzzle_stores.
  split; [done|]. exists board. simpl. split; [done|]. split; [done|].
  pose proof (gs_square_bounds size).
  destruct (is_board_position size board (gs size * gs size - 1) Hb)
    as (p & Hp & Hlt & -> & _); [lia|].
  rewrite Nat2Z.id. split; [lia|done].
Qed.

Lemma handleTileClick_session_ok size s index :
  0 ≤ index < gs (gridSize s) * gs (gridSize s) →
  session_ok size s → session_ok size (handleTileClick s index).
Proof.
  intros Hi Hok.
  destruct (handleTileClick_cases s index) as [->|[Hact Hadj]]; [done|].
  destruct Hok as (Hsize & board & Htiles & Hb & He & Hempty).
  rewrite <- Hsize in Hb, He, Hempty.
  pose proof (is_board_length _ _ Hb) as Hlen.
  apply isAdjacent_in_grid in Hadj; [|lia..].
  rewrite (handleTileClick_in_grid s index board Hact Htiles Hlen He Hi Hadj).
  split; [done|]. rewrite <- Hsize. simpl.
  exists (swap board (Z.to_nat index) (Z.to_nat (emptyIndex (puzzle s)))).
  split; [done|]. split; [|split; [done|]].
  - unfold is_board. rewrite swap_Permutation. exact Hb.
  - rewrite swap_lookup by lia.
    destruct (decide (Z.to_nat index = Z.to_nat (emptyIndex (puzzle s)))) as [Heq|Hne].
    + by rewrite Heq.
    + by rewrite decide_True.
Qed.

Lemma tick_session_ok size s : session_ok size s → session_ok size (tick s).
Proof. unfold tick. by destruct (timerRef s). Qed.

Lemma session_from_ok size s0 s :
  session_ok size s0 → session_from s0 s → session_ok size s.
Proof.
  intros Hok0 Hfrom. induction Hfrom as [|s index _ IH Hi|s _ IH].
  - done.
  - by apply handleTileClick_session_ok.
  - by apply tick_session_ok.
Qed.

(** C4. In every state reached from [create(N)] by moves at positions
    inside the grid and by timer periods, the board is a permutation of
    [0 .. N*N-1] and [emptyIndex] is the one position at which the board
    holds [N*N-1] (the position [indexOf] finds). *)
Theorem session_invariant size fuel rnd s s0 s1 :
  create fuel rnd size s = Some s0 →
  session_from s0 s1 →
  ∃ board : list Z,
    tiles (puzzle s1) = dense board
    ∧ is_board size board
    ∧ 0 ≤ emptyIndex (puzzle s1) < gs size * gs size
    ∧ board !! Z.to_nat (emptyIndex (puzzle s1)) = Some (gs size * gs size - 1)
    ∧ emptyIndex (puzzle s1) = indexOf board (gs size * gs size - 1)
    ∧ ∀ q : nat, board !! q = Some (gs size * gs size - 1) →
                 Z.of_nat q = emptyIndex (puzzle s1).
Proof.
  intros Hcreate Hfrom.
  destruct (session_from_ok size s0 s1 (create_session_ok _ _ _ _ _ Hcreate) Hfrom)
    as (_ & board & Htiles & Hb & He & Hempty).
  exists board. repeat split; try done; try lia.
  - rewrite (indexOf_NoDup _ _ _ (is_board_NoDup _ _ Hb) Hempty). lia.
  - intros q Hq.
    pose proof (NoDup_lookup board q _ _ (is_board_NoDup _ _ Hb) Hq Hempty). lia.
Qed.


(** A 3x3 game, its first move (the tile above the empty slot) and one
    timer period. *)
Lemma session_invariant_witness :
  ∃ board : list Z,
    tiles (puzzle (tick (handleTileClick game7 4))) = dense board
    ∧ is_board Three board
    ∧ 0 ≤ emptyIndex (puzzle (tick (handleTileClick game7 4))) < 9
    ∧ board !! Z.to_nat (emptyIndex (puzzle (tick (handleTileClick game7 4))))
      = Some 8
    ∧ emptyIndex (puzzle (tick (handleTileClick game7 4))) = indexOf board 8
    ∧ ∀ q : nat, board !! q = Some 8 →
                 Z.of_nat q = emptyIndex (puzzle (tick (handleTileClick game7 4))).
Proof.
  apply (session_invariant Three 1 (oracle [7; 7; 6; 5; 4; 3; 2; 1]%nat)
           initialApp game7 (tick (handleTileClick game7 4))).
  - reflexivity.
  - apply session_tick. apply session_move.
    + apply session_created.
    + simpl. lia.
Defined.

(** ** Starting a game *)

(** The outcome of [initPuzzle] owes nothing to the puzzle it replaces. *)
Lemma initPuzzle_independent fuel rnd size s1 s2 s1' :
  initPuzzle fuel rnd size s1 = Some s1' →
  ∃ s2' : App, initPuzzle fuel rnd size s2 = Some s2'
               ∧ puzzle s2' = puzzle s1' ∧ timerRef s2' = timerRef s1'.
Proof.
  unfold initPuzzle.
  destruct (shuffle_until fuel rnd 0 (gs size * gs size) size
              (seqZ 0 (gs size * gs size))) as [board|]; [|done].
  intros H. injection H as <-. by eexists.
Qed.

(** With a picture loaded, the start button after the difficulty button is
    [create]. *)
Lemma resetGame_create fuel rnd size s :
  is_Some (image s) →
  resetGame fuel rnd (setGridSize s size) = create fuel rnd size s.
Proof. intros [data Himg]. unfold resetGame, create. simpl. by rewrite Himg. Qed.

(** A game that is on and unsolved has its interval running, in every
    state the component can reach. *)
Lemma app_step_timer_runs s s' :
  app_step s s' → timer_runs_when_active s → timer_runs_when_active s'.
Proof.
  intros Hstep Hinv. destruct Hstep as
    [fuel rnd size s s' Hinit|fuel rnd s s' Hreset|s index|s|s size|s data|s].
  - apply initPuzzle_stores in Hinit as (board & -> & _). done.
  - unfold resetGame in Hreset. destruct (image s).
    + apply initPuzzle_stores in Hreset as (board & -> & _). done.
    + by injection Hreset as <-.
  - unfold handleTileClick.
    destruct (negb (isStarted (puzzle s)) || isSolved (puzzle s)) eqn:Hguard; [done|].
    destruct (isAdjacent _ _ _); [|done].
    apply orb_false_elim in Hguard as [Hst Hso]. apply negb_false_iff in Hst.
    unfold timer_runs_when_active. simpl. intros _ ->. by apply Hinv.
  - unfold tick. destruct (timerRef s) eqn:Ht; [done| |done].
    intros _ _. done.
  - done.
  - intros Hstarted. done.
  - done.
Qed.

Lemma reachable_timer_runs s : reachable s → timer_runs_when_active s.
Proof.
  unfold reachable. revert s. apply rtc_ind_r.
  - intros Hstarted. done.
  - intros s s' _ Hstep Hinv. by eapply app_step_timer_runs.
Qed.

Lemma tick_counts_active s :
  reachable s → state_of (puzzle s) = Active →
  seconds (puzzle (tick s)) = seconds (puzzle s) + 1.
Proof.
  intros Hreach [Hst Hso]%state_of_Active.
  unfold tick. by rewrite (reachable_timer_runs s Hreach Hst Hso).
Qed.

(** * More properties of the component *)

(** ** The shuffle *)

(** X1. Whatever the random numbers, [shuffle] returns a rearrangement of
    its argument, of the same length; the empty array and an array of one
    element come back as they are. *)
Theorem shuffle_rearranges rnd pos (array : list Z) :
  shuffle rnd pos array ≡ₚ array
  ∧ length (shuffle rnd pos array) = length array
  ∧ shuffle rnd pos [] = []
  ∧ ∀ x : Z, shuffle rnd pos [x] = [x].
Proof.
  split; [apply shuffle_Permutation|].
  split; [apply Permutation_length, shuffle_Permutation|].
  split; [reflexivity|]. intros x. reflexivity.
Qed.

(** The loop reads the oracle from [pos] on only. *)
Lemma shuffle_loop_ext rnd1 rnd2 (i : nat) :
  ∀ pos (l : list Z),
    (∀ k, (pos ≤ k)%nat → rnd1 k = rnd2 k) →
    shuffle_loop rnd1 pos i l = shuffle_loop rnd2 pos i l.
Proof.
  induction i as [|i IH]; intros pos l Hext; simpl; [done|].
  rewrite (Hext pos) by lia. apply IH. intros k Hk. apply Hext. lia.
Qed.

Lemma swap_drop (l : list Z) (i j n : nat) :
  (i < n)%nat → (j < n)%nat → drop n (swap l i j) = drop n l.
Proof.
  intros Hi Hj. unfold swap.
  destruct (l !! i); [|done]. destruct (l !! j); [|done].
  by rewrite !drop_insert_lt.
Qed.

Lemma swap_take_Permutation (l : list Z) (i j n : nat) :
  (i < n)%nat → (j < n)%nat → take n (swap l i j) ≡ₚ take n l.
Proof.
  intros Hi Hj.
  apply (Permutation_app_inv_r (drop n l)).
  rewrite <- (swap_drop l i j n Hi Hj) at 1.
  rewrite !take_drop. apply swap_Permutation.
Qed.

Lemma shuffle_loop_S rnd pos (i : nat) (l : list Z) :
  shuffle_loop rnd pos (S i) l
  = shuffle_loop rnd (S pos) i (swap l (S i) (rnd pos `mod` (S i + 1))).
Proof. reflexivity. Qed.

(** The loop can leave any arrangement of the part of the array it still
    has to visit. *)
Lemma shuffle_loop_reaches (i : nat) :
  ∀ pos (l target : list Z),
    (i ≤ length l - 1)%nat →
    length target = length l →
    take (S i) target ≡ₚ take (S i) l →
    drop (S i) target = drop (S i) l →
    ∃ rnd, shuffle_loop rnd pos i l = target.
Proof.
  induction i as [|i IH]; intros pos l target Hi Hlen Htake Hdrop.
  - exists (λ _, O). simpl.
    rewrite <- (take_drop 1 target), <- (take_drop 1 l), Hdrop. f_equal.
    destruct l as [|x l], target as [|y target]; simpl in *; try done.
    apply Permutation_singleton_r in Htake. by injection Htake as ->.
  - destruct (lookup_lt_is_Some_2 target (S i)) as [y Hy]; [lia|].
    destruct (lookup_lt_is_Some_2 l (S i)) as [a Ha]; [lia|].
    assert (y ∈ take (S (S i)) l) as Hin.
    { rewrite <- Htake. apply list_elem_of_lookup. exists (S i).
      rewrite lookup_take_lt by lia. done. }
    apply list_elem_of_lookup in Hin as [j Hj].
    pose proof (lookup_lt_Some _ _ _ Hj) as Hjlt.
    rewrite length_take in Hjlt.
    rewrite lookup_take_lt in Hj by lia.
    assert (swap l (S i) j !! S i = Some y) as Hl1.
    { rewrite swap_lookup by lia.
      destruct (decide (S i = j)) as [<-|Hne]; [congruence|].
      by rewrite decide_True. }
    pose proof (swap_length l (S i) j) as Hlen1.
    assert (drop (S (S i)) (swap l (S i) j) = drop (S (S i)) l) as Hdrop1
      by (apply swap_drop; lia).
    destruct (IH (S pos) (swap l (S i) j) target) as [rnd' Hrnd'].
    + lia.
    + lia.
    + apply (Permutation_app_inv_r [y]).
      rewrite <- (take_S_r target (S i) y Hy).
      rewrite <- (take_S_r (swap l (S i) j) (S i) y Hl1).
      rewrite Htake. symmetry. apply swap_take_Permutation; lia.
    + rewrite (drop_S target y (S i) Hy), (drop_S _ y (S i) Hl1).
      by rewrite Hdrop, Hdrop1.
    + exists (λ k, if decide (k = pos) then j else rnd' k).
      rewrite shuffle_loop_S, decide_True by done.
      rewrite Nat.mod_small by lia.
      rewrite <- Hrnd'. apply shuffle_loop_ext.
      intros k Hk. rewrite decide_False by lia. done.
Qed.

(** X2. The shuffle can produce every rearrangement of its argument: for
    each one there are random numbers that lead to it. *)
Theorem shuffle_reaches_every_permutation (array target : list Z) :
  target ≡ₚ array → ∃ rnd, shuffle rnd 0 array = target.
Proof.
  intros Hperm. pose proof (Permutation_length Hperm) as Hlen.
  unfold shuffle. apply shuffle_loop_reaches; [lia|done| |].
  - rewrite !take_ge by lia. done.
  - rewrite !drop_ge by lia. done.
Qed.

(** The rearrangement [[2; 0; 1]] of [[0; 1; 2]]. *)
Lemma shuffle_reaches_every_permutation_witness :
  ∃ rnd, shuffle rnd 0 [0; 1; 2] = [2; 0; 1].
Proof.
  apply (shuffle_reaches_every_permutation [0; 1; 2] [2; 0; 1]).
  apply (bool_decide_unpack _). vm_compute. exact I.
Defined.

(** ** The rejection loop, round by round *)

Lemma dense_inj (l k : list Z) : dense l = dense k → l = k.
Proof.
  unfold dense. intros H. injection H as H.
  revert k H. induction l as [|x l IH]; intros [|y k] H; try done.
  simpl in H. injection H as -> H. f_equal. by apply IH.
Qed.

Lemma shuffle_until_first rnd totalTiles size initialTiles (k : nat) :
  ∀ fuel pos,
    (k < fuel)%nat →
    accepted totalTiles size initialTiles
      (shuffle rnd (pos + k * (length initialTiles - 1)) initialTiles) = true →
    (∀ k', (k' < k)%nat →
           accepted totalTiles size initialTiles
             (shuffle rnd (pos + k' * (length initialTiles - 1)) initialTiles) = false) →
    shuffle_until fuel rnd pos totalTiles size initialTiles
    = Some (shuffle rnd (pos + k * (length initialTiles - 1)) initialTiles).
Proof.
  induction k as [|k IH]; intros fuel pos Hfuel Hacc Hrej;
    (destruct fuel as [|fuel]; [lia|]); simpl.
  - rewrite Nat.add_0_r in *. unfold accepted in Hacc.
    apply negb_true_iff in Hacc. by rewrite Hacc.
  - pose proof (Hrej O ltac:(lia)) as Hrej0. simpl in Hrej0.
    rewrite Nat.add_0_r in Hrej0. unfold accepted in Hrej0.
    apply negb_false_iff in Hrej0. rewrite Hrej0.
    rewrite (IH fuel (pos + (length initialTiles - 1))%nat).
    + do 2 f_equal. lia.
    + lia.
    + rewrite <- Hacc. do 2 f_equal. lia.
    + intros k' Hk'. rewrite <- (Hrej (S k')) by lia. do 2 f_equal. lia.
Qed.

Lemma shuffle_until_inv rnd totalTiles size initialTiles (fuel : nat) :
  ∀ pos board,
    shuffle_until fuel rnd pos totalTiles size initialTiles = Some board →
    ∃ k : nat,
      (k < fuel)%nat
      ∧ board = shuffle rnd (pos + k * (length initialTiles - 1)) initialTiles
      ∧ accepted totalTiles size initialTiles board = true
      ∧ ∀ k', (k' < k)%nat →
              accepted totalTiles size initialTiles
                (shuffle rnd (pos + k' * (length initialTiles - 1)) initialTiles)
              = false.
Proof.
  induction fuel as [|fuel IH]; intros pos board Hrun; [done|].
  simpl in Hrun.
  destruct (negb (isSolvable totalTiles (shuffle rnd pos initialTiles) size)
            || json_eq (shuffle rnd pos initialTiles) initialTiles) eqn:Hcond.
  - apply IH in Hrun as (k & Hk & -> & Hacc & Hrej).
    exists (S k). split; [lia|].
    assert (pos + S k * (length initialTiles - 1)
            = pos + (length initialTiles - 1) + k * (length initialTiles - 1))%nat
      as Hpos by lia.
    split; [by rewrite Hpos|]. split.
    + exact Hacc.
    + intros [|k'] Hk'.
      * simpl. rewrite Nat.add_0_r. unfold accepted. by rewrite Hcond.
      * rewrite <- (Hrej k') by lia. do 2 f_equal. lia.
  - injection Hrun as <-. exists O. split; [lia|].
    simpl. rewrite Nat.add_0_r. split; [done|]. split.
    + unfold accepted. by rewrite Hcond.
    + intros k' Hk'. lia.
Qed.

(** The first accepted round at or before an accepted one. *)
Lemma first_true (P : nat → bool) (k : nat) :
  P k = true →
  ∃ k0 : nat, (k0 ≤ k)%nat ∧ P k0 = true ∧ ∀ k', (k' < k0)%nat → P k' = false.
Proof.
  revert P. induction k as [|k IH]; intros P Hk.
  - exists O. split; [lia|]. split; [done|]. intros k' Hk'. lia.
  - destruct (P O) eqn:H0.
    + exists O. split; [lia|]. split; [done|]. intros k' Hk'. lia.
    + destruct (IH (λ n, P (S n)) Hk) as (k0 & Hle & Htrue & Hfalse).
      exists (S k0). split; [lia|]. split; [done|].
      intros [|k'] Hk'; [done|]. apply Hfalse. lia.
Qed.

(** C9. When a round of the rejection loop is accepted and the fuel reaches
    it, [create(N)] returns, whatever the state before (a Solved session
    included).  The session then holds the freshly generated board, that is
    the shuffle of the first accepted round, which is what the rejection
    loop returns, a permutation that passes the solvability test and is not
    the solved board, together with the index of its empty slot; the move
    count and the seconds are 0, the session is Active and a timer runs;
    nothing of the previous session remains, the result being the same from
    any two previous states. *)
Theorem create_starts_fresh size fuel rnd s (k : nat) :
  round_accepts rnd size k = true →
  (k < fuel)%nat →
  ∃ (s' : App) (k0 : nat),
    let totalTiles := gs size * gs size in
    let initialTiles := seqZ 0 totalTiles in
    let board := shuffle rnd (k0 * (length initialTiles - 1)) initialTiles in
    (k0 ≤ k)%nat
    ∧ round_accepts rnd size k0 = true
    ∧ (∀ k', (k' < k0)%nat → round_accepts rnd size k' = false)
    ∧ shuffle_until fuel rnd 0 totalTiles size initialTiles = Some board
    ∧ create fuel rnd size s = Some s'
    ∧ snapshot s'
      = mkSnapshot (dense board) (indexOf board (totalTiles - 1)) 0 0 Active
    ∧ is_board size board
    ∧ board ≠ solved_board size
    ∧ isSolvable totalTiles board size = true
    ∧ board !! Z.to_nat (indexOf board (totalTiles - 1)) = Some (totalTiles - 1)
    ∧ gridSize s' = size
    ∧ timerRef s' = Running
    ∧ image s' = image s
    ∧ ∀ s2 : App, ∃ s2' : App,
        create fuel rnd size s2 = Some s2' ∧ puzzle s2' = puzzle s'
        ∧ gridSize s2' = size ∧ timerRef s2' = Running.
Proof.
  intros Hacc Hfuel.
  destruct (first_true (round_accepts rnd size) k Hacc) as (k0 & Hle & Hacc0 & Hrej0).
  pose proof (shuffle_until_first rnd (gs size * gs size) size
                (seqZ 0 (gs size * gs size)) k0 fuel 0%nat ltac:(lia) Hacc0 Hrej0)
    as Hrun.
  simpl in Hrun.
  set (board := shuffle rnd (k0 * (length (seqZ 0 (gs size * gs size)) - 1))
                        (seqZ 0 (gs size * gs size))) in *.
  assert (create fuel rnd size s
          = Some (mkApp (image s) size
                    (mkPuzzle (dense board) (indexOf board (gs size * gs size - 1))
                              0 0 true false)
                    Running)) as Hcreate.
  { unfold create, initPuzzle. by rewrite Hrun. }
  pose proof Hcreate as Hstores. unfold create in Hstores.
  apply initPuzzle_stores in Hstores as (board' & Heq & Hb & Hne & Hsolv).
  apply (f_equal (λ a, tiles (puzzle a))) in Heq. simpl in Heq.
  apply dense_inj in Heq as <-.
  eexists _, k0. cbv zeta. fold board.
  split; [done|]. split; [done|]. split; [done|]. split; [done|].
  split; [exact Hcreate|]. split; [done|]. split; [done|]. split; [done|].
  split; [done|]. split; [|split; [done|split; [done|split; [done|]]]].
  - pose proof (gs_square_bounds size).
    destruct (is_board_position size board (gs size * gs size - 1) Hb)
      as (p & Hp & _ & -> & _); [lia|].
    by rewrite Nat2Z.id.
  - intros s2. unfold create, initPuzzle. rewrite Hrun.
    eexists. split; [done|]. done.
Qed.

(** A new game from the solved 3x3 game. *)
Lemma create_starts_fresh_witness :
  ∃ (s' : App) (k0 : nat),
    let totalTiles := gs Three * gs Three in
    let initialTiles := seqZ 0 totalTiles in
    let board :=
      shuffle (oracle [7; 7; 6; 5; 4; 3; 2; 1]%nat)
              (k0 * (length initialTiles - 1)) initialTiles in
    (k0 ≤ 0)%nat
    ∧ round_accepts (oracle [7; 7; 6; 5; 4; 3; 2; 1]%nat) Three k0 = true
    ∧ (∀ k', (k' < k0)%nat →
             round_accepts (oracle [7; 7; 6; 5; 4; 3; 2; 1]%nat) Three k' = false)
    ∧ shuffle_until 1 (oracle [7; 7; 6; 5; 4; 3; 2; 1]%nat) 0 totalTiles Three
                    initialTiles
      = Some board
    ∧ create 1 (oracle [7; 7; 6; 5; 4; 3; 2; 1]%nat) Three (handleTileClick app7 8)
      = Some s'
    ∧ snapshot s'
      = mkSnapshot (dense board) (indexOf board (totalTiles - 1)) 0 0 Active
    ∧ is_board Three board
    ∧ board ≠ solved_board Three
    ∧ isSolvable totalTiles board Three = true
    ∧ board !! Z.to_nat (indexOf board (totalTiles - 1)) = Some (totalTiles - 1)
    ∧ gridSize s' = Three
    ∧ timerRef s' = Running
    ∧ image s' = image (handleTileClick app7 8)
    ∧ ∀ s2 : App, ∃ s2' : App,
        create 1 (oracle [7; 7; 6; 5; 4; 3; 2; 1]%nat) Three s2 = Some s2'
        ∧ puzzle s2' = puzzle s'
        ∧ gridSize s2' = Three ∧ timerRef s2' = Running.
Proof.
  apply (create_starts_fresh Three 1 (oracle [7; 7; 6; 5; 4; 3; 2; 1]%nat)
           (handleTileClick app7 8) 0).
  - reflexivity.
  - lia.
Defined.

(** The run above stores the board of the sample game. *)
Example create_stores_board7 :
  snapshot <$> create 1 (oracle [7; 7; 6; 5; 4; 3; 2; 1]%nat) Three
                      (handleTileClick app7 8)
  = Some (mkSnapshot (dense board7) 7 0 0 Active).
Proof. reflexivity. Qed.

(** X3. [initPuzzle] stores the board of the first round of its loop whose
    shuffle is solvable and differs from the solved board, and the board of
    no other round: a board is stored exactly when it is the shuffle of an
    accepted round that the fuel reaches and that no accepted round precedes. *)
Theorem generator_returns_first_accepted size fuel rnd s (board : list Z) :
  (∃ s', initPuzzle fuel rnd size s = Some s' ∧ tiles (puzzle s') = dense board)
  ↔ ∃ k : nat,
      (k < fuel)%nat
      ∧ round_accepts rnd size k = true
      ∧ (∀ k', (k' < k)%nat → round_accepts rnd size k' = false)
      ∧ board = shuffle rnd (k * (length (seqZ 0 (gs size * gs size)) - 1))
                        (seqZ 0 (gs size * gs size)).
Proof.
  split.
  - intros (s' & Hinit & Htiles). unfold initPuzzle in Hinit.
    destruct (shuffle_until fuel rnd 0 (gs size * gs size) size
                (seqZ 0 (gs size * gs size))) as [board'|] eqn:Hrun; [|done].
    injection Hinit as <-. simpl in Htiles. apply dense_inj in Htiles as ->.
    apply shuffle_until_inv in Hrun as (k & Hk & Hboard & Hacc & Hrej).
    exists k. split; [done|]. split; [|split; [|done]].
    + unfold round_accepts. simpl in Hboard. rewrite <- Hboard. exact Hacc.
    + intros k' Hk'. exact (Hrej k' Hk').
  - intros (k & Hk & Hacc & Hrej & ->).
    unfold initPuzzle.
    rewrite (shuffle_until_first rnd _ size _ k fuel 0%nat Hk Hacc Hrej).
    eexists. split; [done|]. done.
Qed.

(** X4. Every board that passes the test and is not the solved board can
    come out of the generator: some random numbers make [initPuzzle] store
    it in its first round, whatever the fuel and the state before. *)
Theorem every_playable_board_generated size (board : list Z) :
  is_board size board →
  isSolvable (gs size * gs size) board size = true →
  board ≠ solved_board size →
  ∃ rnd, ∀ fuel s, ∃ s',
    initPuzzle (S fuel) rnd size s = Some s'
    ∧ tiles (puzzle s') = dense board
    ∧ state_of (puzzle s') = Active.
Proof.
  intros Hb Hsolv Hne.
  unfold is_board, solved_board in Hb.
  pose proof (Permutation_length Hb) as Hlen.
  destruct (shuffle_loop_reaches (length (seqZ 0 (gs size * gs size)) - 1) 0%nat
              (seqZ 0 (gs size * gs size)) board) as [rnd Hrnd].
  { lia. }
  { done. }
  { rewrite !take_ge by lia. exact Hb. }
  { rewrite !drop_ge by lia. done. }
  fold (shuffle rnd 0 (seqZ 0 (gs size * gs size))) in Hrnd.
  exists rnd. intros fuel s. unfold initPuzzle. simpl.
  rewrite Hrnd, Hsolv. simpl.
  unfold json_eq. rewrite bool_decide_eq_false_2 by done.
  eexists. split; [done|]. done.
Qed.

(** The board of the sample game. *)
Lemma every_playable_board_generated_witness :
  ∃ rnd, ∀ fuel s, ∃ s',
    initPuzzle (S fuel) rnd Three s = Some s'
    ∧ tiles (puzzle s') = dense board7
    ∧ state_of (puzzle s') = Active.
Proof.
  apply (every_playable_board_generated Three board7).
  - apply (bool_decide_unpack _). vm_compute. exact I.
  - reflexivity.
  - intros H. discriminate H.
Defined.

(** ** Moves, again *)

Lemma adjacent_sym size (p e : Z) : adjacent size p e → adjacent size e p.
Proof. unfold adjacent. lia. Qed.

Lemma swap_swap (l : list Z) (i j : nat) :
  (i < length l)%nat → (j < length l)%nat → swap (swap l i j) j i = l.
Proof.
  intros Hi Hj. apply list_eq. intros k.
  rewrite swap_lookup by (rewrite swap_length; lia).
  rewrite !swap_lookup by lia.
  repeat case_decide; subst; try done; try lia.
Qed.

(** X5. A move that does not solve the puzzle is undone by clicking the
    cell the empty slot came from: the board and [emptyIndex] are as before,
    two moves are counted, the clock is untouched. *)
Theorem move_undone_by_reverse_click s index (board : list Z) :
  let size := gridSize s in
  let e := emptyIndex (puzzle s) in
  state_of (puzzle s) = Active →
  tiles (puzzle s) = dense board →
  Z.of_nat (length board) = gs size * gs size →
  0 ≤ e < gs size * gs size →
  0 ≤ index < gs size * gs size →
  adjacent size index e →
  state_of (puzzle (handleTileClick s index)) = Active →
  let s2 := handleTileClick (handleTileClick s index) e in
  tiles (puzzle s2) = tiles (puzzle s)
  ∧ emptyIndex (puzzle s2) = e
  ∧ moves (puzzle s2) = moves (puzzle s) + 2
  ∧ seconds (puzzle s2) = seconds (puzzle s).
Proof.
  intros size e Hact Htiles Hlen He Hi Hadj Hact1 s2.
  pose proof (handleTileClick_in_grid s index board Hact Htiles Hlen He Hi Hadj) as H1.
  fold size e in H1.
  set (s1 := handleTileClick s index) in *.
  assert (tiles (puzzle s1) = dense (swap board (Z.to_nat index) (Z.to_nat e))) as Ht1
    by (by rewrite H1).
  assert (emptyIndex (puzzle s1) = index) as He1 by (by rewrite H1).
  assert (gridSize s1 = size) as Hs1 by (by rewrite H1).
  pose proof (handleTileClick_in_grid s1 e _ Hact1 Ht1) as H2.
  rewrite He1, Hs1, swap_length in H2.
  specialize (H2 Hlen Hi He (adjacent_sym _ _ _ Hadj)).
  unfold s2. rewrite H2. simpl.
  rewrite swap_swap by lia.
  rewrite H1. simpl. repeat split; [done|lia].
Qed.

(** The sample game: the tile above the empty slot, and back. *)
Lemma move_undone_by_reverse_click_witness :
  tiles (puzzle (handleTileClick (handleTileClick app7 4) 7)) = tiles (puzzle app7)
  ∧ emptyIndex (puzzle (handleTileClick (handleTileClick app7 4) 7)) = 7
  ∧ moves (puzzle (handleTileClick (handleTileClick app7 4) 7))
    = moves (puzzle app7) + 2
  ∧ seconds (puzzle (handleTileClick (handleTileClick app7 4) 7))
    = seconds (puzzle app7).
Proof.
  apply (move_undone_by_reverse_click app7 4 board7).
  - reflexivity.
  - reflexivity.
  - reflexivity.
  - simpl. lia.
  - simpl. lia.
  - right. split; reflexivity.
  - reflexivity.
Defined.

(** X6. Wherever the empty slot is in the grid, between two and four
    positions of the grid pass the test of the handler, and they are the
    positions next to the empty slot by row or column: a game is never
    stuck. *)
Theorem legal_targets_count size (e : Z) :
  0 ≤ e < gs size * gs size →
  (2 ≤ length (legal_targets size e) ≤ 4)%nat
  ∧ ∀ index : Z,
      index ∈ legal_targets size e
      ↔ 0 ≤ index < gs size * gs size ∧ adjacent size index e.
Proof.
  intros He. split.
  - assert (Forall (λ e, (2 ≤ length (legal_targets size e) ≤ 4)%nat)
                   (seqZ 0 (gs size * gs size))) as Hall.
    { destruct size; apply (bool_decide_unpack _); vm_compute; exact I. }
    rewrite Forall_seqZ in Hall. apply Hall. lia.
  - intros index. unfold legal_targets.
    rewrite list_elem_of_In, List.filter_In, <- list_elem_of_In, elem_of_seqZ.
    split.
    + intros [Hi Hadj]. split; [lia|]. apply isAdjacent_in_grid; [lia..|done].
    + intros [Hi Hadj]. split; [lia|]. apply isAdjacent_in_grid; [lia..|done].
Qed.

(** The empty slot in the last cell of the 3x3 grid. *)
Lemma legal_targets_count_witness :
  (2 ≤ length (legal_targets Three 8) ≤ 4)%nat
  ∧ ∀ index : Z,
      index ∈ legal_targets Three 8 ↔ 0 ≤ index < 9 ∧ adjacent Three index 8.
Proof.
  apply (legal_targets_count Three 8). simpl. lia.
Defined.

(** What a click leaves alone, whatever the position. *)
Lemma handleTileClick_frame s index :
  seconds (puzzle (handleTileClick s index)) = seconds (puzzle s)
  ∧ isStarted (puzzle (handleTileClick s index)) = isStarted (puzzle s)
  ∧ gridSize (handleTileClick s index) = gridSize s
  ∧ image (handleTileClick s index) = image s
  ∧ moves (puzzle (handleTileClick s index))
    = moves (puzzle s) + (if decide (handleTileClick s index = s) then 0 else 1).
Proof.
  destruct (handleTileClick_cases s index) as [Hsame|[Hact Hadj]].
  - rewrite Hsame. rewrite decide_True by done. repeat split; lia.
  - destruct (handleTileClick_adjacent_moves s index Hact Hadj) as [Hmoves _].
    rewrite decide_False by (intros Heq; rewrite Heq in Hmoves; lia).
    apply state_of_Active in Hact as [Hst Hso].
    unfold handleTileClick in *. rewrite Hst, Hso, Hadj in *. simpl in *.
    repeat split; done.
Qed.

(** X7. Over any run of clicks, at any positions, the move count grows by
    exactly the number of clicks that changed the state; the clicks touch
    neither the clock, nor the grid size, nor the picture, nor [isStarted]. *)
Theorem moves_count_applied_clicks (clicks : list Z) : ∀ s,
  moves (puzzle (foldl handleTileClick s clicks))
  = moves (puzzle s) + Z.of_nat (applied_clicks s clicks)
  ∧ seconds (puzzle (foldl handleTileClick s clicks)) = seconds (puzzle s)
  ∧ isStarted (puzzle (foldl handleTileClick s clicks)) = isStarted (puzzle s)
  ∧ gridSize (foldl handleTileClick s clicks) = gridSize s
  ∧ image (foldl handleTileClick s clicks) = image s.
Proof.
  induction clicks as [|index clicks IH]; intros s; simpl.
  - repeat split; lia.
  - destruct (IH (handleTileClick s index)) as (Hm & Hsec & Hst & Hsize & Himg).
    destruct (handleTileClick_frame s index) as (Hsec1 & Hst1 & Hsize1 & Himg1 & Hm1).
    rewrite Hm, Hsec, Hst, Hsize, Himg, Hm1.
    repeat split; try done.
    destruct (decide (handleTileClick s index = s)); lia.
Qed.

(** ** The clock and the events around a game *)

(** The sample game is reached: picture, start. *)
Lemma sample_game_reachable : reachable app7.
Proof.
  unfold reachable.
  eapply rtc_l; [apply (step_drop initialApp "img")|].
  apply rtc_once.
  apply (step_reset 1 (oracle [7; 7; 6; 5; 4; 3; 2; 1]%nat) _ app7). reflexivity.
Qed.

Lemma reachable_tick s : reachable s → reachable (tick s).
Proof. intros Hreach. eapply rtc_r; [exact Hreach|apply step_tick]. Qed.

Lemma tick_Active s :
  state_of (puzzle s) = Active → state_of (puzzle (tick s)) = Active.
Proof. unfold tick. by destruct (timerRef s). Qed.

Lemma tick_keeps_board s :
  tiles (puzzle (tick s)) = tiles (puzzle s)
  ∧ emptyIndex (puzzle (tick s)) = emptyIndex (puzzle s)
  ∧ moves (puzzle (tick s)) = moves (puzzle s).
Proof. unfold tick. by destruct (timerRef s). Qed.

(** X8. On a game that is on and unsolved, in any state the component can
    reach, [n] timer periods add exactly [n] to [seconds] and change nothing
    else of the puzzle. *)
Theorem clock_counts_ticks s (n : nat) :
  reachable s →
  state_of (puzzle s) = Active →
  seconds (puzzle (Nat.iter n tick s)) = seconds (puzzle s) + Z.of_nat n
  ∧ tiles (puzzle (Nat.iter n tick s)) = tiles (puzzle s)
  ∧ emptyIndex (puzzle (Nat.iter n tick s)) = emptyIndex (puzzle s)
  ∧ moves (puzzle (Nat.iter n tick s)) = moves (puzzle s)
  ∧ state_of (puzzle (Nat.iter n tick s)) = Active.
Proof.
  intros Hreach Hact.
  assert (reachable (Nat.iter n tick s) ∧ state_of (puzzle (Nat.iter n tick s)) = Active
          ∧ seconds (puzzle (Nat.iter n tick s)) = seconds (puzzle s) + Z.of_nat n
          ∧ tiles (puzzle (Nat.iter n tick s)) = tiles (puzzle s)
          ∧ emptyIndex (puzzle (Nat.iter n tick s)) = emptyIndex (puzzle s)
          ∧ moves (puzzle (Nat.iter n tick s)) = moves (puzzle s)) as H.
  { induction n as [|n IH]; simpl.
    - repeat split; try done. lia.
    - destruct IH as (Hr & Ha & Hsec & Ht & He & Hm).
      split; [by apply reachable_tick|]. split; [by apply tick_Active|].
      rewrite (tick_counts_active _ Hr Ha), Hsec.
      destruct (tick_keeps_board (Nat.iter n tick s)) as (Ht' & He' & Hm').
      rewrite Ht', He', Hm'. repeat split; try done. lia. }
  destruct H as (_ & Ha & Hsec & Ht & He & Hm). done.
Qed.

(** The sample game after three seconds. *)
Lemma clock_counts_ticks_witness :
  seconds (puzzle (Nat.iter 3 tick app7)) = seconds (puzzle app7) + 3
  ∧ tiles (puzzle (Nat.iter 3 tick app7)) = tiles (puzzle app7)
  ∧ emptyIndex (puzzle (Nat.iter 3 tick app7)) = emptyIndex (puzzle app7)
  ∧ moves (puzzle (Nat.iter 3 tick app7)) = moves (puzzle app7)
  ∧ state_of (puzzle (Nat.iter 3 tick app7)) = Active.
Proof.
  apply (clock_counts_ticks app7 3).
  - exact sample_game_reachable.
  - reflexivity.
Defined.

(** X9. Loading a new picture during a game ends the game for clicks, which
    are all ignored from then on, but neither stops the interval nor clears
    the board: the next timer period still adds a second. *)
Theorem new_picture_keeps_clock s data :
  reachable s →
  state_of (puzzle s) = Active →
  state_of (puzzle (onDrop s data)) = Uninitialized
  ∧ (∀ index : Z, handleTileClick (onDrop s data) index = onDrop s data)
  ∧ seconds (puzzle (tick (onDrop s data))) = seconds (puzzle s) + 1
  ∧ tiles (puzzle (onDrop s data)) = tiles (puzzle s)
  ∧ moves (puzzle (onDrop s data)) = moves (puzzle s)
  ∧ image (onDrop s data) = Some data.
Proof.
  intros Hreach Hact.
  pose proof Hact as [Hst Hso]%state_of_Active.
  pose proof (reachable_timer_runs s Hreach Hst Hso) as Htimer.
  split; [done|]. split; [intros index; done|].
  unfold tick, onDrop. simpl. rewrite Htimer. done.
Qed.

(** A second picture dropped on the sample game. *)
Lemma new_picture_keeps_clock_witness :
  state_of (puzzle (onDrop app7 "pic")) = Uninitialized
  ∧ (∀ index : Z, handleTileClick (onDrop app7 "pic") index = onDrop app7 "pic")
  ∧ seconds (puzzle (tick (onDrop app7 "pic"))) = seconds (puzzle app7) + 1
  ∧ tiles (puzzle (onDrop app7 "pic")) = tiles (puzzle app7)
  ∧ moves (puzzle (onDrop app7 "pic")) = moves (puzzle app7)
  ∧ image (onDrop app7 "pic") = Some "pic"%string.
Proof.
  apply (new_picture_keeps_clock app7 "pic").
  - exact sample_game_reachable.
  - reflexivity.
Defined.

Lemma idle_apply_solved s ev :
  isSolved (puzzle s) = true → timerRef s ≠ Running →
  puzzle (idle_apply s ev) = puzzle s ∧ timerRef (idle_apply s ev) = timerRef s.
Proof.
  intros Hsolved Htimer. destruct ev as [index| |size|]; simpl; try done.
  - unfold handleTileClick. rewrite Hsolved, orb_true_r. done.
  - by rewrite tick_stopped.
Qed.

(** X10. A solved puzzle stays as it is until a game is started or a picture
    is loaded: no run of clicks, timer periods, difficulty changes and
    picture removals changes the board, the counters or the flags. *)
Theorem solved_until_restart s (events : list idle_event) :
  reachable s →
  state_of (puzzle s) = Solved →
  puzzle (foldl idle_apply s events) = puzzle s
  ∧ snapshot (foldl idle_apply s events) = snapshot s.
Proof.
  intros Hreach Hsolved.
  pose proof Hsolved as [_ Hso]%state_of_Solved.
  pose proof (reachable_timer s Hreach Hso) as Htimer.
  assert (puzzle (foldl idle_apply s events) = puzzle s) as Hpuzzle.
  { clear Hreach Hsolved. revert s Hso Htimer.
    induction events as [|ev events IH]; intros s Hso Htimer; simpl; [done|].
    destruct (idle_apply_solved s ev Hso Htimer) as [Hp Ht].
    rewrite IH; [done|by rewrite Hp|by rewrite Ht]. }
  split; [done|]. unfold snapshot. by rewrite Hpuzzle.
Qed.

(** The solved sample game, clicked, timed, resized and stripped of its
    picture. *)
Lemma solved_until_restart_witness :
  puzzle (foldl idle_apply (handleTileClick app7 8)
            [ClickTile 7; TimerPeriod; ChooseSize Five; RemovePicture; ClickTile 5])
  = puzzle (handleTileClick app7 8)
  ∧ snapshot (foldl idle_apply (handleTileClick app7 8)
                [ClickTile 7; TimerPeriod; ChooseSize Five; RemovePicture; ClickTile 5])
    = snapshot (handleTileClick app7 8).
Proof.
  apply (solved_until_restart (handleTileClick app7 8)).
  - exact solved_game_reachable.
  - reflexivity.
Defined.

(** ** The board under the events of the page *)

(** The handler on a move that passes its test, on any array of numbers
    that holds both positions; the grid size of the state need not be the
    one the array was made for. *)
Lemma handleTileClick_dense s index (board : list Z) :
  let e := emptyIndex (puzzle s) in
  let board' := swap board (Z.to_nat index) (Z.to_nat e) in
  let solved := bool_decide (board' = seqZ 0 (Z.of_nat (length board))) in
  state_of (puzzle s) = Active →
  tiles (puzzle s) = dense board →
  Z.of_nat (length board) < 2 ^ 32 - 1 →
  0 ≤ e < Z.of_nat (length board) →
  0 ≤ index < Z.of_nat (length board) →
  isAdjacent (gs (gridSize s)) index e = true →
  handleTileClick s index =
  mkApp (image s) (gridSize s)
        (mkPuzzle (dense board') index (moves (puzzle s) + 1) (seconds (puzzle s))
                  true solved)
        (if solved then clearTimer (timerRef s) else timerRef s).
Proof.
  intros e board' solved Hact Htiles Hsmall He Hi Hadj.
  apply state_of_Active in Hact as [Hstarted Hsolved].
  unfold handleTileClick. rewrite Hstarted, Hsolved. simpl.
  fold e. rewrite Hadj, Htiles, js_spread_dense.
  assert (is_array_index index = true) as Hidx.
  { unfold is_array_index. apply andb_true_iff.
    split; [apply Z.leb_le|apply Z.ltb_lt]; lia. }
  assert (is_array_index e = true) as Hidxe.
  { unfold is_array_index. apply andb_true_iff.
    split; [apply Z.leb_le|apply Z.ltb_lt]; lia. }
  rewrite !js_get_dense by done.
  destruct (lookup_lt_is_Some_2 board (Z.to_nat index)) as [b Hb]; [lia|].
  destruct (lookup_lt_is_Some_2 board (Z.to_nat e)) as [a Ha]; [lia|].
  rewrite Ha, Hb. simpl.
  rewrite js_set_dense by (done || lia).
  rewrite js_set_dense by (done || rewrite length_insert; lia).
  assert (<[Z.to_nat e := b]> (<[Z.to_nat index := a]> board) = board') as ->.
  { unfold board', swap. by rewrite Hb, Ha. }
  rewrite js_every_dense.
  replace (length board') with (length board)
    by (unfold board'; by rewrite swap_length).
  done.
Qed.

Lemma js_length_dense (l : list Z) : js_length (dense l) = Z.of_nat (length l).
Proof. unfold js_length, dense. simpl. by rewrite length_fmap. Qed.

Lemma handleTileClick_board_ok s index :
  0 ≤ index < js_length (tiles (puzzle s)) →
  board_ok s → board_ok (handleTileClick s index).
Proof.
  intros Hi Hok.
  destruct (handleTileClick_cases s index) as [->|[Hact Hadj]]; [done|].
  destruct Hok as [(Htiles & _)|(M & board & Htiles & Hb & He & Hempty & _)].
  { rewrite Htiles in Hi. unfold js_length in Hi. simpl in Hi. lia. }
  rewrite Htiles, js_length_dense in Hi.
  pose proof (is_board_length _ _ Hb) as Hlen.
  pose proof (gs_square_bounds M) as HM.
  rewrite (handleTileClick_dense s index board Hact Htiles) by (done || lia).
  right. exists M, (swap board (Z.to_nat index) (Z.to_nat (emptyIndex (puzzle s)))).
  simpl. split; [done|]. split; [|split; [lia|split]].
  - unfold is_board. rewrite swap_Permutation. exact Hb.
  - rewrite swap_lookup by lia.
    destruct (decide (Z.to_nat index = Z.to_nat (emptyIndex (puzzle s)))) as [Heq|Hne].
    + by rewrite Heq.
    + by rewrite decide_True.
  - intros Hsolved. apply bool_decide_eq_true in Hsolved.
    rewrite Hsolved. unfold solved_board. by rewrite Hlen.
Qed.

Lemma initPuzzle_board_ok fuel rnd size s s' :
  initPuzzle fuel rnd size s = Some s' → board_ok s'.
Proof.
  intros (board & -> & Hb & _)%initPuzzle_stores.
  right. exists size, board. simpl. split; [done|]. split; [done|].
  pose proof (gs_square_bounds size).
  destruct (is_board_position size board (gs size * gs size - 1) Hb)
    as (p & Hp & Hlt & -> & _); [lia|].
  rewrite Nat2Z.id. split; [lia|]. split; done.
Qed.

Lemma ui_step_board_ok s s' : ui_step s s' → board_ok s → board_ok s'.
Proof.
  intros Hstep Hok.
  destruct Hstep as [fuel rnd s s' Hreset|s index Hi|s|s size|s data|s].
  - unfold resetGame in Hreset. destruct (image s).
    + by eapply initPuzzle_board_ok.
    + by injection Hreset as <-.
  - by apply handleTileClick_board_ok.
  - unfold tick. by destruct (timerRef s).
  - done.
  - destruct Hok as [(Htiles & _)|(M & board & Htiles & Hb & He & Hempty & _)].
    + by left.
    + right. exists M, board. simpl. done.
  - done.
Qed.

Lemma ui_reachable_board_ok s : ui_reachable s → board_ok s.
Proof.
  unfold ui_reachable. revert s. apply rtc_ind_r.
  - by left.
  - intros s s' _ Hstep Hok. by eapply ui_step_board_ok.
Qed.

(** The solved sample game, as the page reaches it. *)
Lemma solved_game_ui_reachable : ui_reachable (handleTileClick app7 8).
Proof.
  unfold ui_reachable.
  eapply rtc_l; [apply (ui_drop initialApp "img")|].
  eapply rtc_l;
    [apply (ui_reset 1 (oracle [7; 7; 6; 5; 4; 3; 2; 1]%nat) _ app7); reflexivity|].
  apply rtc_once. apply ui_click. unfold js_length. simpl. lia.
Qed.

(** X11. Whatever the user does on the page (start and restart, clicks on
    the tiles shown, difficulty changes in the middle of a game, pictures
    loaded and removed, timer periods), a started game holds a permutation
    of the identifiers of the grid size it was started with, and
    [emptyIndex] is the one position of its empty slot. *)
Theorem page_keeps_board s :
  ui_reachable s →
  isStarted (puzzle s) = true →
  ∃ (boardSize : GridSize) (board : list Z),
    tiles (puzzle s) = dense board
    ∧ is_board boardSize board
    ∧ 0 ≤ emptyIndex (puzzle s) < gs boardSize * gs boardSize
    ∧ board !! Z.to_nat (emptyIndex (puzzle s))
      = Some (gs boardSize * gs boardSize - 1)
    ∧ ∀ q : nat, board !! q = Some (gs boardSize * gs boardSize - 1) →
                 Z.of_nat q = emptyIndex (puzzle s).
Proof.
  intros Hreach Hstarted.
  destruct (ui_reachable_board_ok s Hreach)
    as [(_ & Hst & _)|(M & board & Htiles & Hb & He & Hempty & _)]; [congruence|].
  exists M, board. repeat split; try done; try lia.
  intros q Hq.
  pose proof (NoDup_lookup board q _ _ (is_board_NoDup _ _ Hb) Hq Hempty). lia.
Qed.

(** The solved sample game. *)
Lemma page_keeps_board_witness :
  ∃ (boardSize : GridSize) (board : list Z),
    tiles (puzzle (handleTileClick app7 8)) = dense board
    ∧ is_board boardSize board
    ∧ 0 ≤ emptyIndex (puzzle (handleTileClick app7 8)) < gs boardSize * gs boardSize
    ∧ board !! Z.to_nat (emptyIndex (puzzle (handleTileClick app7 8)))
      = Some (gs boardSize * gs boardSize - 1)
    ∧ ∀ q : nat, board !! q = Some (gs boardSize * gs boardSize - 1) →
                 Z.of_nat q = emptyIndex (puzzle (handleTileClick app7 8)).
Proof.
  apply (page_keeps_board (handleTileClick app7 8)).
  - exact solved_game_ui_reachable.
  - reflexivity.
Defined.

(** X12. On the page the flag [isSolved] is up only over the solved board
    of the grid size the game was started with, and then the empty slot is
    the last cell. *)
Theorem solved_flag_means_solved_board s :
  ui_reachable s →
  isSolved (puzzle s) = true →
  ∃ boardSize : GridSize,
    tiles (puzzle s) = dense (solved_board boardSize)
    ∧ emptyIndex (puzzle s) = gs boardSize * gs boardSize - 1.
Proof.
  intros Hreach Hsolved.
  destruct (ui_reachable_board_ok s Hreach)
    as [(_ & _ & Hso)|(M & board & Htiles & Hb & He & Hempty & Hid)]; [congruence|].
  exists M. specialize (Hid Hsolved). subst board. split; [done|].
  unfold solved_board in Hempty. apply lookup_seqZ in Hempty as [Heq _]. lia.
Qed.

(** The solved sample game. *)
Lemma solved_flag_means_solved_board_witness :
  ∃ boardSize : GridSize,
    tiles (puzzle (handleTileClick app7 8)) = dense (solved_board boardSize)
    ∧ emptyIndex (puzzle (handleTileClick app7 8)) = gs boardSize * gs boardSize - 1.
Proof.
  apply (solved_flag_means_solved_board (handleTileClick app7 8)).
  - exact solved_game_ui_reachable.
  - reflexivity.
Defined.

(** ** The view *)

Lemma app_step_counters s s' :
  app_step s s' →
  0 ≤ seconds (puzzle s) ∧ 0 ≤ moves (puzzle s) →
  0 ≤ seconds (puzzle s') ∧ 0 ≤ moves (puzzle s').
Proof.
  intros Hstep [Hsec Hmoves]. destruct Hstep as
    [fuel rnd size s s' Hinit|fuel rnd s s' Hreset|s index|s|s size|s data|s].
  - apply initPuzzle_stores in Hinit as (board & -> & _). done.
  - unfold resetGame in Hreset. destruct (image s).
    + apply initPuzzle_stores in Hreset as (board & -> & _). done.
    + by injection Hreset as <-.
  - destruct (handleTileClick_frame s index) as (-> & _ & _ & _ & ->).
    destruct (decide (handleTileClick s index = s)); lia.
  - unfold tick. destruct (timerRef s); simpl; lia.
  - done.
  - done.
  - done.
Qed.

Lemma reachable_counters s :
  reachable s → 0 ≤ seconds (puzzle s) ∧ 0 ≤ moves (puzzle s).
Proof.
  unfold reachable. revert s. apply rtc_ind_r.
  - done.
  - intros s s' _ Hstep Hok. by eapply app_step_counters.
Qed.

Lemma reachable_ticks (n : nat) s : reachable s → reachable (Nat.iter n tick s).
Proof.
  intros Hreach. induction n as [|n IH]; [done|]. simpl. by apply reachable_tick.
Qed.

Lemma padStart_two_digits (r : Z) :
  0 ≤ r < 60 → padStart 2 (pretty r) = two_digits r.
Proof.
  intros Hr.
  assert (Forall (λ r, padStart 2 (pretty r) = two_digits r) (seqZ 0 60)) as Hall.
  { apply (bool_decide_unpack _). vm_compute. exact I. }
  rewrite Forall_seqZ in Hall. apply Hall. lia.
Qed.

(** X13. In every state the component can reach the counters are not
    negative, and the clock reads the whole minutes, a colon, and the
    remaining seconds as exactly two decimal digits. *)
Theorem clock_display s :
  reachable s →
  let sec := seconds (puzzle s) in
  0 ≤ sec
  ∧ 0 ≤ moves (puzzle s)
  ∧ formatTime sec = pretty (sec `div` 60) +:+ ":" +:+ two_digits (sec `mod` 60)
  ∧ 0 ≤ sec `mod` 60 < 60
  ∧ 60 * (sec `div` 60) + sec `mod` 60 = sec.
Proof.
  intros Hreach sec.
  destruct (reachable_counters s Hreach) as [Hsec Hmoves]. fold sec in Hsec.
  split; [done|]. split; [done|]. split; [|split].
  - unfold formatTime. rewrite Z.rem_mod_nonneg by lia.
    rewrite padStart_two_digits; [done|]. apply Z.mod_pos_bound. lia.
  - apply Z.mod_pos_bound. lia.
  - symmetry. apply Z.div_mod. lia.
Qed.

(** The sample game after 125 seconds reads 2:05. *)
Lemma clock_display_witness :
  let sec := seconds (puzzle (Nat.iter 125 tick app7)) in
  0 ≤ sec
  ∧ 0 ≤ moves (puzzle (Nat.iter 125 tick app7))
  ∧ formatTime sec = pretty (sec `div` 60) +:+ ":" +:+ two_digits (sec `mod` 60)
  ∧ 0 ≤ sec `mod` 60 < 60
  ∧ 60 * (sec `div` 60) + sec `mod` 60 = sec.
Proof.
  apply (clock_display (Nat.iter 125 tick app7)).
  apply reachable_ticks. exact sample_game_reachable.
Defined.

Example clock_reads_2_05 :
  formatTime (seconds (puzzle (Nat.iter 125 tick app7))) = "2:05"%string.
Proof. vm_compute. reflexivity. Qed.

Lemma solved_board_lookup size (p : nat) (v : Z) :
  solved_board size !! p = Some v ↔ v = Z.of_nat p ∧ Z.of_nat p < gs size * gs size.
Proof. unfold solved_board. rewrite lookup_seqZ. lia. Qed.

(** X14. For a board of the grid size in use, the button of every tile
    shows the picture piece of a cell of the grid, the cell whose number is
    the tile's identifier; exactly one button is the hidden one; and the
    board is the solved board exactly when every tile sits in the cell whose
    piece it shows. *)
Theorem tile_views size (board : list Z) :
  is_board size board →
  (∀ (p : nat) (v : Z), board !! p = Some v →
     0 ≤ view_row (tileView size v) < gs size
     ∧ 0 ≤ view_col (tileView size v) < gs size
     ∧ view_row (tileView size v) * gs size + view_col (tileView size v) = v
     ∧ (view_isEmpty (tileView size v) = true ↔ v = gs size * gs size - 1))
  ∧ (∃ p : nat, ∀ (q : nat) (v : Z),
       board !! q = Some v → (view_isEmpty (tileView size v) = true ↔ q = p))
  ∧ (board = solved_board size
     ↔ ∀ (p : nat) (v : Z), board !! p = Some v →
         view_row (tileView size v) = row_of size (Z.of_nat p)
         ∧ view_col (tileView size v) = col_of size (Z.of_nat p)).
Proof.
  intros Hb. pose proof (gs_pos size) as HN.
  pose proof (gs_square_bounds size) as HN2.
  assert (∀ (p : nat) (v : Z), board !! p = Some v → 0 ≤ v < gs size * gs size) as Hrange.
  { intros p v Hp. apply (is_board_elem size board v Hb).
    apply list_elem_of_lookup. by exists p. }
  split; [|split].
  - intros p v Hp. specialize (Hrange p v Hp). simpl.
    rewrite Z.rem_mod_nonneg by lia. rewrite Z.eqb_eq.
    repeat split; try done.
    + apply Z.div_pos; lia.
    + apply Z.div_lt_upper_bound; lia.
    + apply Z.mod_pos_bound; lia.
    + apply Z.mod_pos_bound; lia.
    + rewrite Z.mul_comm. symmetry. apply Z.div_mod. lia.
  - destruct (is_board_position size board (gs size * gs size - 1) Hb)
      as (p & Hp & _ & _ & Huniq); [lia|].
    exists p. intros q v Hq. simpl. rewrite Z.eqb_eq. split.
    + intros ->. by apply Huniq.
    + intros ->. congruence.
  - split.
    + intros -> p v [-> Hp]%solved_board_lookup. simpl.
      unfold row_of, col_of. rewrite Z.rem_mod_nonneg by lia. done.
    + intros Hhome. apply list_eq. intros p.
      destruct (board !! p) as [v|] eqn:Hp.
      * symmetry. apply solved_board_lookup.
        destruct (Hhome p v Hp) as [Hrow Hcol]. simpl in Hrow, Hcol.
        specialize (Hrange p v Hp).
        unfold row_of, col_of in *. rewrite Z.rem_mod_nonneg in Hcol by lia.
        apply lookup_lt_Some in Hp.
        pose proof (is_board_length _ _ Hb).
        split; [|lia].
        rewrite (Z.div_mod v (gs size)), (Z.div_mod (Z.of_nat p) (gs size)) by lia.
        by rewrite Hrow, Hcol.
      * symmetry. apply lookup_ge_None in Hp.
        pose proof (is_board_length _ _ Hb).
        destruct (solved_board size !! p) as [v|] eqn:Hs; [|done].
        apply solved_board_lookup in Hs. lia.
Qed.

(** The board of the sample game. *)
Lemma tile_views_witness :
  (∀ (p : nat) (v : Z), board7 !! p = Some v →
     0 ≤ view_row (tileView Three v) < 3
     ∧ 0 ≤ view_col (tileView Three v) < 3
     ∧ view_row (tileView Three v) * 3 + view_col (tileView Three v) = v
     ∧ (view_isEmpty (tileView Three v) = true ↔ v = 8))
  ∧ (∃ p : nat, ∀ (q : nat) (v : Z),
       board7 !! q = Some v → (view_isEmpty (tileView Three v) = true ↔ q = p))
  ∧ (board7 = solved_board Three
     ↔ ∀ (p : nat) (v : Z), board7 !! p = Some v →
         view_row (tileView Three v) = row_of Three (Z.of_nat p)
         ∧ view_col (tileView Three v) = col_of Three (Z.of_nat p)).
Proof.
  apply (tile_views Three board7).
  apply (bool_decide_unpack _). vm_compute. exact I.
Defined.

(** ** The solvability test along a game *)

Lemma filter_length_fmap {A B} (p : B → bool) (g : A → B) (l : list A) :
  length (List.filter p (g <$> l)) = length (List.filter (λ x, p (g x)) l).
Proof.
  induction l as [|x l IH]; [done|].
  rewrite fmap_cons. cbn [List.filter].
  destruct (p (g x)); cbn [length]; by rewrite IH.
Qed.

Lemma filter_length_ext {A} (p q : A → bool) (l : list A) :
  (∀ x, p x = q x) → length (List.filter p l) = length (List.filter q l).
Proof. intros Hpq. by rewrite (List.filter_ext p q Hpq). Qed.

Lemma filter_by_index (p : Z → bool) (l : list Z) :
  length (List.filter (λ j, match l !! j with Some b => p b | None => false end)
                      (seq 0 (length l)))
  = length (List.filter p l).
Proof.
  induction l as [|x l IH]; simpl; [done|].
  rewrite <- fmap_S_seq.
  destruct (p x); simpl; rewrite filter_length_fmap; simpl; by rewrite IH.
Qed.

Lemma count_loop_rows (l : list Z) (rows : list nat) (acc : nat) :
  foldl (λ inversions i,
           foldl (λ inversions j, if gt_at l i j then S inversions else inversions)
                 inversions (seq (S i) (length l - S i)))
        acc rows
  = (acc + sum_list_with
             (λ i, length (List.filter (gt_at l i) (seq (S i) (length l - S i))))
             rows)%nat.
Proof.
  revert acc. induction rows as [|i rows IH]; intros acc; simpl; [lia|].
  rewrite IH, inner_loop_count. lia.
Qed.

Lemma sum_list_with_S_seq (g : nat → nat) (n : nat) :
  sum_list_with g (seq 1 n) = sum_list_with (λ i, g (S i)) (seq 0 n).
Proof.
  rewrite <- fmap_S_seq. generalize (seq 0 n). intros l.
  induction l as [|i l IH]; [done|].
  rewrite fmap_cons. cbn [sum_list_with]. by rewrite IH.
Qed.

Lemma sum_list_with_ext_seq (g h : nat → nat) (l : list nat) :
  (∀ i, g i = h i) → sum_list_with g l = sum_list_with h l.
Proof. intros Hgh. induction l as [|i l IH]; simpl; [done|]. by rewrite Hgh, IH. Qed.

(** The loops of [isSolvable] count, for every element, the smaller
    elements after it. *)
Lemma count_inversions_rec (l : list Z) : count_inversions l = inv_rec l.
Proof.
  unfold count_inversions. rewrite count_loop_rows. simpl.
  induction l as [|x l IH]; [done|].
  simpl length. simpl seq. simpl sum_list_with. simpl inv_rec.
  rewrite Nat.sub_0_r, sum_list_with_S_seq. f_equal.
  - rewrite <- fmap_S_seq, filter_length_fmap.
    rewrite <- (filter_by_index (λ b, b <? x) l).
    apply filter_length_ext. intros j. unfold gt_at. simpl.
    by destruct (l !! j).
  - rewrite <- IH.
    apply sum_list_with_ext_seq. intros i.
    rewrite <- (fmap_S_seq (S i)), filter_length_fmap.
    apply filter_length_ext. intros j. done.
Qed.

Lemma cross_app_l (A A' B : list Z) :
  cross (A ++ A') B = (cross A B + cross A' B)%nat.
Proof. induction A as [|a A IH]; simpl; [done|]. rewrite IH. lia. Qed.

Lemma cross_app_r (A B B' : list Z) :
  cross A (B ++ B') = (cross A B + cross A B')%nat.
Proof.
  induction A as [|a A IH]; simpl; [done|].
  rewrite IH, List.filter_app, length_app. lia.
Qed.

Lemma inv_rec_app (A B : list Z) :
  inv_rec (A ++ B) = (inv_rec A + inv_rec B + cross A B)%nat.
Proof.
  induction A as [|a A IH]; simpl; [lia|].
  rewrite IH, List.filter_app, length_app. lia.
Qed.

Lemma cross_single (t : Z) (M : list Z) :
  t ∉ M → (cross [t] M + cross M [t] = length M)%nat.
Proof.
  induction M as [|m M IH]; intros Ht; simpl; [done|].
  apply not_elem_of_cons in Ht as [Hne Ht]. specialize (IH Ht). simpl in IH.
  destruct (Z.ltb_spec m t), (Z.ltb_spec t m); simpl; lia.
Qed.

(** Moving one element across a block that does not hold it changes the
    parity of the inversions by the parity of the length of the block. *)
Lemma inv_rec_move (P M S : list Z) (t : Z) :
  t ∉ M →
  Nat.even (inv_rec (P ++ t :: M ++ S))
  = xorb (Nat.even (inv_rec (P ++ M ++ t :: S))) (Nat.odd (length M)).
Proof.
  intros Ht. pose proof (cross_single t M Ht) as Hcross.
  set (K := (inv_rec P + inv_rec M + inv_rec S + cross P M + cross P [t]
             + cross P S + cross M S + cross [t] S)%nat).
  assert (inv_rec (P ++ t :: M ++ S) = K + cross [t] M)%nat as ->.
  { change (t :: M ++ S) with ([t] ++ M ++ S).
    rewrite !inv_rec_app, !cross_app_r. simpl. unfold K. simpl. lia. }
  assert (inv_rec (P ++ M ++ t :: S) = K + cross M [t])%nat as ->.
  { change (t :: S) with ([t] ++ S).
    rewrite !inv_rec_app, !cross_app_r. simpl. unfold K. simpl. lia. }
  rewrite <- Hcross, <- Nat.negb_even, !Nat.even_add.
  by destruct (Nat.even K), (Nat.even (cross [t] M)), (Nat.even (cross M [t])).
Qed.

Lemma swap_comm (l : list Z) (i j : nat) :
  (i < length l)%nat → (j < length l)%nat → swap l i j = swap l j i.
Proof.
  intros Hi Hj. apply list_eq. intros k.
  rewrite !swap_lookup by lia.
  repeat case_decide; subst; done.
Qed.

(** An exchange of two positions, written on the pieces of the list. *)
Lemma swap_split (l : list Z) (i j : nat) :
  (i < j)%nat → (j < length l)%nat →
  ∃ (P : list Z) (x : Z) (M : list Z) (y : Z) (S' : list Z),
    l = P ++ x :: M ++ y :: S'
    ∧ l !! i = Some x ∧ l !! j = Some y
    ∧ length P = i
    ∧ length M = (j - i - 1)%nat
    ∧ swap l i j = P ++ y :: M ++ x :: S'.
Proof.
  intros Hij Hj.
  destruct (lookup_lt_is_Some_2 l i) as [x Hx]; [lia|].
  destruct (lookup_lt_is_Some_2 l j) as [y Hy]; [lia|].
  set (P := take i l). set (R := drop (S i) l).
  set (M := take (j - i - 1) R). set (S' := drop (S (j - i - 1)) R).
  assert (l = P ++ x :: R) as Hl by (symmetry; by apply take_drop_middle).
  assert (R !! (j - i - 1)%nat = Some y) as HRy.
  { unfold R. rewrite lookup_drop. rewrite <- Hy. f_equal. lia. }
  assert (R = M ++ y :: S') as HR by (symmetry; by apply take_drop_middle).
  assert (length P = i) as HP by (unfold P; rewrite length_take; lia).
  assert (length M = (j - i - 1)%nat) as HM.
  { unfold M. rewrite length_take. apply lookup_lt_Some in HRy. lia. }
  exists P, x, M, y, S'. rewrite <- HR.
  split; [done|]. split; [done|]. split; [done|]. split; [done|]. split; [done|].
  unfold swap. rewrite Hx, Hy. rewrite Hl at 1.
  rewrite insert_app_r_alt by lia.
  replace (i - length P)%nat with O by lia. simpl.
  rewrite insert_app_r_alt by lia.
  replace (j - length P)%nat with (S (length M)) by lia. simpl.
  rewrite HR.
  rewrite insert_app_r_alt by lia.
  replace (length M - length M)%nat with O by lia. done.
Qed.

Lemma filter_length_all (p : Z → bool) (l : list Z) :
  (∀ x, x ∈ l → p x = true) → List.filter p l = l.
Proof.
  induction l as [|x l IH]; intros Hp; simpl; [done|].
  rewrite (Hp x); [|by left]. rewrite IH; [done|]. intros y Hy. apply Hp. by right.
Qed.

(** [isSolvable] in terms of parities. *)
Lemma isSolvable_unfold (totalTiles : Z) (tiles : list Z) size :
  isSolvable totalTiles tiles size =
  let inversions := inv_rec (List.filter (λ t, negb (t =? totalTiles - 1)) tiles) in
  if Z.odd (gs size) then Nat.even inversions
  else xorb (Z.even (gs size - indexOf tiles (totalTiles - 1) / gs size))
            (Nat.even inversions).
Proof.
  unfold isSolvable. cbv zeta.
  rewrite !rem2_even, !mod2_even, Z.negb_even, count_inversions_rec.
  destruct (Z.odd (gs size)); [done|].
  by destruct (Z.even _), (Nat.even _).
Qed.

(** The test on a board and on the board after the exchange of the empty
    slot with the tile at distance [d] in the array. *)
Lemma filter_exchange (E : Z) (P M S' : list Z) (t : Z) :
  t ≠ E → E ∉ M → t ∉ M →
  let f := List.filter (λ v, negb (v =? E)) in
  Nat.even (inv_rec (f (P ++ t :: M ++ E :: S')))
  = xorb (Nat.even (inv_rec (f (P ++ E :: M ++ t :: S')))) (Nat.odd (length M)).
Proof.
  intros Ht HE HtM f. unfold f.
  assert (List.filter (λ v, negb (v =? E)) M = M) as HfM.
  { apply filter_length_all. intros x Hx.
    destruct (Z.eqb_spec x E) as [->|]; [done|done]. }
  rewrite !List.filter_app. simpl. rewrite !List.filter_app. simpl.
  rewrite Z.eqb_refl. simpl.
  destruct (Z.eqb_spec t E) as [|_]; [done|]. simpl.
  rewrite HfM. by apply inv_rec_move.
Qed.

Lemma NoDup_pieces (P M S' : list Z) (x y : Z) :
  NoDup (P ++ x :: M ++ y :: S') → x ≠ y ∧ (x ∉ M) ∧ (y ∉ M).
Proof.
  intros Hnd. apply NoDup_app in Hnd as (_ & _ & Hnd).
  apply NoDup_cons in Hnd as [Hx Hnd].
  apply NoDup_app in Hnd as (_ & HM & _).
  rewrite elem_of_app, elem_of_cons in Hx.
  split; [intros ->; apply Hx; right; left; done|].
  split; [intros H; apply Hx; left; done|].
  intros Hy. apply (HM y Hy). by left.
Qed.

(** The parity of the inversions after the empty slot has changed places
    with the tile at [index]. *)
Lemma exchange_parity size (board : list Z) (e index : Z) :
  is_board size board →
  0 ≤ e < gs size * gs size →
  0 ≤ index < gs size * gs size →
  index ≠ e →
  board !! Z.to_nat e = Some (gs size * gs size - 1) →
  let f := List.filter (λ v, negb (v =? gs size * gs size - 1)) in
  Nat.even (inv_rec (f (swap board (Z.to_nat index) (Z.to_nat e))))
  = xorb (Nat.even (inv_rec (f board)))
         (Nat.odd (Z.to_nat (Z.abs (index - e)) - 1)).
Proof.
  intros Hb He Hi Hne Hempty f.
  pose proof (is_board_NoDup _ _ Hb) as Hnd.
  pose proof (is_board_length _ _ Hb) as Hlen.
  destruct (decide (index < e)) as [Hlt|Hge].
  - destruct (swap_split board (Z.to_nat index) (Z.to_nat e))
      as (P & t & M & y & S' & Hl & Ht & Hy & HP & HM & Hswap); [lia..|].
    assert (y = gs size * gs size - 1) as -> by congruence.
    rewrite Hswap. rewrite Hl at 1. rewrite Hl in Hnd.
    destruct (NoDup_pieces _ _ _ _ _ Hnd) as (HtE & HtM & HEM).
    pose proof (filter_exchange (gs size * gs size - 1) P M S' t HtE HEM HtM) as Hx.
    simpl in Hx. unfold f. rewrite Hx.
    replace (Z.to_nat (Z.abs (index - e)) - 1)%nat with (length M) by lia.
    by rewrite xorb_assoc, xorb_nilpotent, xorb_false_r.
  - destruct (swap_split board (Z.to_nat e) (Z.to_nat index))
      as (P & x & M & t & S' & Hl & Hx & Ht & HP & HM & Hswap); [lia..|].
    assert (x = gs size * gs size - 1) as -> by congruence.
    rewrite swap_comm by lia.
    rewrite Hswap. rewrite Hl at 1. rewrite Hl in Hnd.
    destruct (NoDup_pieces _ _ _ _ _ Hnd) as (HEt & HEM & HtM).
    pose proof (filter_exchange (gs size * gs size - 1) P M S' t
                  (not_eq_sym HEt) HEM HtM) as Hx'.
    simpl in Hx'. unfold f. rewrite Hx'.
    replace (Z.to_nat (Z.abs (index - e)) - 1)%nat with (length M) by lia.
    done.
Qed.

(** What row/column adjacency means for the positions in the array. *)
Lemma adjacent_distance size (index e : Z) :
  0 ≤ e < gs size * gs size →
  0 ≤ index < gs size * gs size →
  adjacent size index e →
  (index `div` gs size = e `div` gs size ∧ Z.abs (index - e) = 1)
  ∨ (Z.abs (index `div` gs size - e `div` gs size) = 1
     ∧ Z.abs (index - e) = gs size).
Proof.
  intros He Hi. unfold adjacent, row_of, col_of.
  destruct size; simpl gs in *; Z.to_euclidean_division_equations; lia.
Qed.

(** A legal exchange does not change the answer of the test. *)
Lemma exchange_keeps_test size (board : list Z) (e index : Z) :
  is_board size board →
  0 ≤ e < gs size * gs size →
  0 ≤ index < gs size * gs size →
  board !! Z.to_nat e = Some (gs size * gs size - 1) →
  adjacent size index e →
  isSolvable (gs size * gs size) (swap board (Z.to_nat index) (Z.to_nat e)) size
  = isSolvable (gs size * gs size) board size.
Proof.
  intros Hb He Hi Hempty Hadj.
  assert (index ≠ e) as Hne.
  { intros ->. by apply (own_position_not_adjacent size e). }
  pose proof (is_board_length _ _ Hb) as Hlen.
  set (board' := swap board (Z.to_nat index) (Z.to_nat e)).
  assert (is_board size board') as Hb'.
  { unfold is_board, board'. rewrite swap_Permutation. exact Hb. }
  assert (board' !! Z.to_nat index = Some (gs size * gs size - 1)) as Hempty'.
  { unfold board'. rewrite swap_lookup by lia.
    rewrite decide_False by lia. by rewrite decide_True. }
  rewrite !isSolvable_unfold. cbv zeta.
  rewrite (indexOf_NoDup board' _ _ (is_board_NoDup _ _ Hb') Hempty').
  rewrite (indexOf_NoDup board _ _ (is_board_NoDup _ _ Hb) Hempty).
  rewrite !Z2Nat.id by lia.
  pose proof (exchange_parity size board e index Hb He Hi Hne Hempty) as Hpar.
  cbv zeta in Hpar. fold board' in Hpar. rewrite Hpar. clear Hpar.
  destruct (adjacent_distance size index e He Hi Hadj) as [[Hrow Hd]|[Hrow Hd]].
  - rewrite Hd, Hrow. simpl. rewrite xorb_false_r. done.
  - rewrite Hd.
    assert (index / gs size = e / gs size + 1 ∨ index / gs size = e / gs size - 1)
      as [-> | ->] by lia;
      destruct size; simpl gs; simpl Nat.odd; rewrite ?xorb_false_r; try done.
    + replace (4 - (e / 4 + 1)) with (Z.pred (4 - e / 4)) by lia.
      rewrite Z.even_pred, <- (Z.negb_even (4 - e / 4)). simpl.
      by destruct (Z.even _), (Nat.even _).
    + replace (4 - (e / 4 - 1)) with (Z.succ (4 - e / 4)) by lia.
      rewrite Z.even_succ, <- (Z.negb_even (4 - e / 4)). simpl.
      by destruct (Z.even _), (Nat.even _).
Qed.

Lemma handleTileClick_test size s index (b b1 : list Z) :
  session_ok size s →
  0 ≤ index < gs size * gs size →
  tiles (puzzle s) = dense b →
  tiles (puzzle (handleTileClick s index)) = dense b1 →
  is_board size b
  ∧ isSolvable (gs size * gs size) b1 size = isSolvable (gs size * gs size) b size.
Proof.
  intros (Hsize & board & Htiles & Hb & He & Hempty) Hi Hb0 Hb1.
  rewrite Htiles in Hb0. apply dense_inj in Hb0 as <-. split; [done|].
  destruct (handleTileClick_cases s index) as [Hsame|[Hact Hadj]].
  - rewrite Hsame, Htiles in Hb1. by apply dense_inj in Hb1 as <-.
  - rewrite <- Hsize in Hb, He, Hempty, Hi.
    pose proof (is_board_length _ _ Hb) as Hlen.
    apply isAdjacent_in_grid in Hadj; [|lia..].
    rewrite (handleTileClick_in_grid s index board Hact Htiles Hlen He Hi Hadj) in Hb1.
    simpl in Hb1. apply dense_inj in Hb1 as <-.
    rewrite <- Hsize. by apply exchange_keeps_test.
Qed.

Lemma session_from_test size s0 s1 (b0 b1 : list Z) :
  session_ok size s0 →
  session_from s0 s1 →
  tiles (puzzle s0) = dense b0 →
  tiles (puzzle s1) = dense b1 →
  isSolvable (gs size * gs size) b1 size = isSolvable (gs size * gs size) b0 size.
Proof.
  intros Hok0 Hfrom Ht0. revert b1.
  induction Hfrom as [|s index Hfrom IH Hi|s Hfrom IH]; intros b1 Ht1.
  - rewrite Ht0 in Ht1. by apply dense_inj in Ht1 as <-.
  - pose proof (session_from_ok size s0 s Hok0 Hfrom) as Hok.
    pose proof Hok as (Hsize & board & Htiles & _).
    rewrite Hsize in Hi.
    destruct (handleTileClick_test size s index board b1 Hok Hi Htiles Ht1) as [_ ->].
    by apply IH.
  - apply IH. rewrite <- Ht1. unfold tick. by destruct (timerRef s).
Qed.

Lemma solved_board_passes size :
  isSolvable (gs size * gs size) (solved_board size) size = true.
Proof. destruct size; vm_compute; reflexivity. Qed.

(** X15. A click inside the grid never changes the answer of the
    solvability test: on a session whose tiles are a board with
    [emptyIndex] at its empty slot, the board after the click is again a
    board, and [isSolvable] gives on it what it gave before. *)
Theorem click_keeps_test_answer s index (board : list Z) :
  let size := gridSize s in
  let e := emptyIndex (puzzle s) in
  tiles (puzzle s) = dense board →
  is_board size board →
  0 ≤ e < gs size * gs size →
  board !! Z.to_nat e = Some (gs size * gs size - 1) →
  0 ≤ index < gs size * gs size →
  ∃ board' : list Z,
    tiles (puzzle (handleTileClick s index)) = dense board'
    ∧ is_board size board'
    ∧ isSolvable (gs size * gs size) board' size
      = isSolvable (gs size * gs size) board size.
Proof.
  intros size e Htiles Hb He Hempty Hi.
  assert (session_ok size s) as Hok.
  { split; [done|]. by exists board. }
  destruct (handleTileClick_session_ok size s index Hi Hok)
    as (_ & board' & Htiles' & Hb' & _).
  exists board'. split; [done|]. split; [done|].
  by destruct (handleTileClick_test size s index board board' Hok Hi Htiles Htiles').
Qed.

(** The tile above the empty slot of the sample game. *)
Lemma click_keeps_test_answer_witness :
  ∃ board' : list Z,
    tiles (puzzle (handleTileClick app7 4)) = dense board'
    ∧ is_board Three board'
    ∧ isSolvable 9 board' Three = isSolvable 9 board7 Three.
Proof.
  apply (click_keeps_test_answer app7 4 board7).
  - reflexivity.
  - apply (bool_decide_unpack _). vm_compute. exact I.
  - simpl. lia.
  - reflexivity.
  - simpl. lia.
Defined.

(** X16. Every board of a game that [create] started passes the
    solvability test, however many moves inside the grid and timer periods
    the game has seen. *)
Theorem game_boards_pass_test size fuel rnd s s0 s1 :
  create fuel rnd size s = Some s0 →
  session_from s0 s1 →
  ∃ board : list Z,
    tiles (puzzle s1) = dense board
    ∧ is_board size board
    ∧ isSolvable (gs size * gs size) board size = true.
Proof.
  intros Hcreate Hfrom.
  pose proof (create_session_ok _ _ _ _ _ Hcreate) as Hok0.
  destruct (session_from_ok size s0 s1 Hok0 Hfrom) as (_ & board & Htiles & Hb & _).
  exists board. split; [done|]. split; [done|].
  unfold create in Hcreate.
  apply initPuzzle_stores in Hcreate as (b0 & Hs0 & _ & _ & Hsolv).
  rewrite (session_from_test size s0 s1 b0 board Hok0 Hfrom); [done| |done].
  by rewrite Hs0.
Qed.

(** The sample game after a move and a second. *)
Lemma game_boards_pass_test_witness :
  ∃ board : list Z,
    tiles (puzzle (tick (handleTileClick game7 4))) = dense board
    ∧ is_board Three board
    ∧ isSolvable 9 board Three = true.
Proof.
  apply (game_boards_pass_test Three 1 (oracle [7; 7; 6; 5; 4; 3; 2; 1]%nat)
           initialApp game7 (tick (handleTileClick game7 4))).
  - reflexivity.
  - apply session_tick. apply session_move.
    + apply session_created.
    + simpl. lia.
Defined.

(** X17. A board that fails the solvability test can never be solved: if
    moves inside the grid and timer periods lead from a board to the solved
    board, the board passes the test. *)
Theorem solved_only_from_passing_board size s0 s1 (board : list Z) :
  gridSize s0 = size →
  tiles (puzzle s0) = dense board →
  is_board size board →
  0 ≤ emptyIndex (puzzle s0) < gs size * gs size →
  board !! Z.to_nat (emptyIndex (puzzle s0)) = Some (gs size * gs size - 1) →
  session_from s0 s1 →
  tiles (puzzle s1) = dense (solved_board size) →
  isSolvable (gs size * gs size) board size = true.
Proof.
  intros Hsize Htiles Hb He Hempty Hfrom Hsolved.
  assert (session_ok size s0) as Hok0.
  { split; [done|]. by exists board. }
  rewrite <- (session_from_test size s0 s1 board _ Hok0 Hfrom Htiles Hsolved).
  apply solved_board_passes.
Qed.

(** The sample game, solved by its first move. *)
Lemma solved_only_from_passing_board_witness :
  isSolvable 9 board7 Three = true.
Proof.
  apply (solved_only_from_passing_board Three app7 (handleTileClick app7 8) board7).
  - reflexivity.
  - reflexivity.
  - apply (bool_decide_unpack _). vm_compute. exact I.
  - simpl. lia.
  - reflexivity.
  - apply session_move; [apply session_created|simpl; lia].
  - reflexivity.
Defined.

(** ** A difficulty change in the middle of a game *)

Lemma isSolvable_Three (tiles : list Z) :
  isSolvable 9 tiles Three
  = Nat.even (inv_rec (List.filter (λ t, negb (t =? 9 - 1)) tiles)).
Proof. rewrite isSolvable_unfold. reflexivity. Qed.

(** Along a session the flag [isSolved] goes up only over the solved board. *)
Lemma session_from_solved_flag size s0 s1 :
  session_ok size s0 →
  isSolved (puzzle s0) = false →
  session_from s0 s1 →
  isSolved (puzzle s1) = true →
  tiles (puzzle s1) = dense (solved_board size).
Proof.
  intros Hok0 Hns Hfrom.
  induction Hfrom as [|s index Hfrom IH Hi|s Hfrom IH]; intros Hsolved.
  - congruence.
  - destruct (handleTileClick_cases s index) as [Hsame|[Hact Hadj]].
    + rewrite Hsame in *. by apply IH.
    + destruct (session_from_ok size s0 s Hok0 Hfrom)
        as (Hsize & board & Htiles & Hb & He & Hempty).
      rewrite <- Hsize in Hb, He, Hempty |- *.
      pose proof (is_board_length _ _ Hb) as Hlen.
      apply isAdjacent_in_grid in Hadj; [|lia..].
      rewrite (handleTileClick_in_grid s index board Hact Htiles Hlen He Hi Hadj)
        in Hsolved |- *.
      simpl in *. apply bool_decide_eq_true in Hsolved. by rewrite Hsolved.
  - unfold tick in *. destruct (timerRef s); by apply IH.
Qed.

(** X18. The difficulty buttons change [gridSize] without starting a new
    game, and the handler tests adjacency with the grid size of the moment.
    On a 3x3 game with the empty slot among the first five cells, choosing
    4x4, clicking the tile four places after the empty slot and choosing 3x3
    again leaves a 3x3 board that fails the solvability test.  The game on
    the page is still on, and as long as the grid size stays 3x3 no run of
    clicks inside the grid and timer periods reaches the solved board or
    sets [isSolved]. *)
Theorem difficulty_switch_breaks_game s (board : list Z) :
  let e := emptyIndex (puzzle s) in
  gridSize s = Three →
  state_of (puzzle s) = Active →
  tiles (puzzle s) = dense board →
  is_board Three board →
  board !! Z.to_nat e = Some 8 →
  0 ≤ e ≤ 4 →
  isSolvable 9 board Three = true →
  let s' := setGridSize (handleTileClick (setGridSize s Four) (e + 4)) Three in
  ∃ board' : list Z,
    tiles (puzzle s') = dense board'
    ∧ is_board Three board'
    ∧ board' !! Z.to_nat (emptyIndex (puzzle s')) = Some 8
    ∧ gridSize s' = Three
    ∧ state_of (puzzle s') = Active
    ∧ isSolvable 9 board' Three = false
    ∧ ∀ s1 : App,
        session_from s' s1 →
        gridSize s1 = Three
        ∧ tiles (puzzle s1) ≠ dense (solved_board Three)
        ∧ isSolved (puzzle s1) = false
        ∧ ∃ board1 : list Z,
            tiles (puzzle s1) = dense board1
            ∧ is_board Three board1
            ∧ isSolvable 9 board1 Three = false.
Proof.
  intros e Hsize Hact Htiles Hb Hempty He Hsolv s'.
  pose proof (is_board_length _ _ Hb) as Hlen. simpl in Hlen.
  set (board' := swap board (Z.to_nat (e + 4)) (Z.to_nat e)).
  assert (is_board Three board') as Hb'.
  { unfold is_board, board'. rewrite swap_Permutation. exact Hb. }
  assert (Nat.even (inv_rec (List.filter (λ v, negb (v =? 9 - 1)) board'))
          = xorb (Nat.even (inv_rec (List.filter (λ v, negb (v =? 9 - 1)) board)))
                 (Nat.odd (Z.to_nat (Z.abs (e + 4 - e)) - 1))) as Hpar.
  { apply (exchange_parity Three board e (e + 4)); simpl; (done || lia). }
  assert (isSolvable 9 board' Three = false) as Hfail.
  { rewrite isSolvable_Three in *. rewrite Hpar, Hsolv.
    replace (Z.to_nat (Z.abs (e + 4 - e)) - 1)%nat with 3%nat by lia. done. }
  assert (isAdjacent 4 (e + 4) e = true) as Hadj.
  { apply isAdjacent_true. left. Z.to_euclidean_division_equations; lia. }
  pose proof (solved_board_passes Three
              : isSolvable 9 (solved_board Three) Three = true) as Hpass.
  assert (bool_decide (board' = seqZ 0 (Z.of_nat (length board))) = false) as Hns.
  { apply bool_decide_eq_false. rewrite Hlen. intros Heq.
    assert (board' = solved_board Three) as Heq' by exact Heq.
    rewrite Heq' in Hfail. congruence. }
  pose proof (handleTileClick_dense (setGridSize s Four) (e + 4) board) as Hclick.
  simpl in Hclick. fold e in Hclick. fold board' in Hclick.
  rewrite Hns in Hclick.
  assert (Z.of_nat (length board) = 9) as Hlen9 by exact Hlen.
  specialize (Hclick Hact Htiles ltac:(lia) ltac:(lia) ltac:(lia) Hadj).
  assert (board' !! Z.to_nat (e + 4) = Some 8) as Hempty'.
  { unfold board'. rewrite swap_lookup by lia.
    rewrite decide_False by lia. rewrite decide_True by done. exact Hempty. }
  assert (session_ok Three s' ∧ isSolved (puzzle s') = false
          ∧ tiles (puzzle s') = dense board') as (Hok' & Hns' & Htiles').
  { unfold s'. rewrite Hclick. simpl. split; [|done].
    split; [done|]. exists board'. simpl. split; [done|]. split; [done|].
    split; [lia|done]. }
  exists board'. split; [done|].
  unfold s' in *. rewrite Hclick in *. simpl in *.
  split; [done|]. split; [done|]. split; [done|]. split; [done|]. split; [done|].
  intros s1 Hfrom.
  destruct (session_from_ok Three _ s1 Hok' Hfrom)
    as (Hsize1 & board1 & Htiles1 & Hb1 & _).
  pose proof (session_from_test Three _ s1 board' board1 Hok' Hfrom Htiles' Htiles1)
    as Htest. simpl in Htest.
  assert (isSolvable 9 board1 Three = false) as Hfail1 by congruence.
  assert (tiles (puzzle s1) ≠ dense (solved_board Three)) as Hnever.
  { rewrite Htiles1. intros Heq. apply dense_inj in Heq. subst board1. congruence. }
  split; [done|]. split; [done|]. split.
  - destruct (isSolved (puzzle s1)) eqn:Hflag; [|done].
    exfalso. apply Hnever.
    by apply (session_from_solved_flag Three _ s1 Hok' Hns' Hfrom).
  - by exists board1.
Qed.

(** The 3x3 game that starts with the empty slot in the first cell. *)
Lemma difficulty_switch_breaks_game_witness :
  let s := mkApp (Some "img"%string) Three
             (mkPuzzle (dense [8; 0; 1; 2; 3; 4; 5; 6; 7]) 0 0 0 true false)
             Running in
  let s' := setGridSize (handleTileClick (setGridSize s Four) (0 + 4)) Three in
  ∃ board' : list Z,
    tiles (puzzle s') = dense board'
    ∧ is_board Three board'
    ∧ board' !! Z.to_nat (emptyIndex (puzzle s')) = Some 8
    ∧ gridSize s' = Three
    ∧ state_of (puzzle s') = Active
    ∧ isSolvable 9 board' Three = false
    ∧ ∀ s1 : App,
        session_from s' s1 →
        gridSize s1 = Three
        ∧ tiles (puzzle s1) ≠ dense (solved_board Three)
        ∧ isSolved (puzzle s1) = false
        ∧ ∃ board1 : list Z,
            tiles (puzzle s1) = dense board1
            ∧ is_board Three board1
            ∧ isSolvable 9 board1 Three = false.
Proof.
  apply (difficulty_switch_breaks_game
           (mkApp (Some "img"%string) Three
              (mkPuzzle (dense [8; 0; 1; 2; 3; 4; 5; 6; 7]) 0 0 0 true false)
              Running)
           [8; 0; 1; 2; 3; 4; 5; 6; 7]).
  - reflexivity.
  - reflexivity.
  - reflexivity.
  - apply (bool_decide_unpack _). vm_compute. exact I.
  - reflexivity.
  - simpl. lia.
  - reflexivity.
Defined.
